(** * restish: the hypermedia link resolver, the OpenAPI operation compiler
      and the command builder, embedded from [cli/links.go], the [openapi]
      loader and [cli/operation.go].

    Go code is embedded shallowly: a Go function becomes a Rocq function on
    the values it reads and writes, a [*Response] that is mutated in place
    is threaded through as a value, a run-time panic is the [Panic] outcome
    of the [Run] monad, and an [error] result is an [option error] (or a
    [Result]).  Libraries outside the repository ([net/url], [fmt],
    [mapstructure], [http-link-go]) are interfaces (type classes): every
    general theorem holds for any implementation of them, and small concrete
    instances are used to evaluate examples. *)

From Stdlib Require Import ZArith String Ascii List Permutation PrimFloat.
From stdpp Require Import base option list sorting strings pretty gmap.

Set Warnings "-register-all".
Local Open Scope string_scope.
Local Open Scope list_scope.

(** ** Outcomes of Go code *)

(** A Go call either returns or panics. *)
Inductive Run (A : Type) : Type :=
| Ret (a : A)
| Panic (msg : string).
Arguments Ret {A} a.
Arguments Panic {A} msg.

#[global] Instance Run_ret : MRet Run := fun A a => Ret a.
#[global] Instance Run_bind : MBind Run := fun A B f m =>
  match m with
  | Ret a => f a
  | Panic msg => Panic msg
  end.

(** Go's [error]: only the message is kept. *)
Definition error : Type := string.

(** A [(T, error)] result. *)
Inductive Result (A : Type) : Type :=
| Ok (a : A)
| Err (e : error).
Arguments Ok {A} a.
Arguments Err {A} e.

Section Loops.
Context {A S : Type} (body : S -> A -> Run S).

(** [for _, x := range xs { s = body(s, x) }]: a panic in the body ends
    the loop. *)
Fixpoint forRange (xs : list A) (s : S) : Run S :=
  match xs with
  | [] => Ret s
  | x :: rest =>
      match body s x with
      | Ret s' => forRange rest s'
      | Panic msg => Panic msg
      end
  end.
End Loops.

(** ** Go values *)

(** Dynamic types of the values that reach the modelled code. *)
Inductive GoType : Type :=
| TBool
| TInt
| TFloat64
| TString
| TInterface
| TSlice (elem : GoType)
| TMap (key elem : GoType)
| TPtr (elem : GoType).

Fixpoint GoType_eqb (t u : GoType) : bool :=
  match t, u with
  | TBool, TBool | TInt, TInt | TFloat64, TFloat64
  | TString, TString | TInterface, TInterface => true
  | TSlice a, TSlice b => GoType_eqb a b
  | TMap k a, TMap l b => GoType_eqb k l && GoType_eqb a b
  | TPtr a, TPtr b => GoType_eqb a b
  | _, _ => false
  end.

(** An [interface{}] value: [VNil] is the nil interface; a slice or a map
    carries its static element types and is [None] when it is a nil slice
    or map; a map lists its entries in the order [MapKeys] returns them;
    a pointer is nil or an address with the value it points to. *)
Inductive Value : Type :=
| VNil
| VBool (b : bool)
| VInt (n : Z)
| VFloat (f : float)
| VString (s : string)
| VSlice (elem : GoType) (xs : option (list Value))
| VMap (key elem : GoType) (kvs : option (list (Value * Value)))
| VPtr (elem : GoType) (target : option (positive * Value)).

(** [reflect.Kind] *)
Inductive Kind : Type :=
| KInvalid | KBool | KInt | KFloat64 | KString | KSlice | KMap | KPtr.

Definition Kind_of (v : Value) : Kind :=
  match v with
  | VNil => KInvalid
  | VBool _ => KBool
  | VInt _ => KInt
  | VFloat _ => KFloat64
  | VString _ => KString
  | VSlice _ _ => KSlice
  | VMap _ _ _ => KMap
  | VPtr _ _ => KPtr
  end.

(** [math.Float64bits(f) == 0]: only positive zero.  This is the test of
    [reflect.Value.IsZero] in the Go releases before 1.22; from Go 1.22 on
    [IsZero] compares the float with zero, and negative zero is zero
    too. *)
Definition zeroBits (f : float) : bool :=
  match PrimFloat.classify f with
  | FloatClass.PZero => true
  | _ => false
  end.

(** [reflect.Value.IsZero]; it panics on the invalid [Value] of a nil
    interface.  The float case is that of Go before 1.22 (see
    [zeroBits]). *)
Definition IsZero (v : Value) : Run bool :=
  match v with
  | VNil => Panic "reflect: call of reflect.Value.IsZero on zero Value"
  | VBool b => Ret (negb b)
  | VInt n => Ret (n =? 0)%Z
  | VFloat f => Ret (zeroBits f)
  | VString s => Ret (String.eqb s "")
  | VSlice _ xs => Ret (bool_decide (xs = None))
  | VMap _ _ kvs => Ret (bool_decide (kvs = None))
  | VPtr _ p => Ret (bool_decide (p = None))
  end.

(** [reflect.Value.Len] of a slice. *)
Definition Len (v : Value) : nat :=
  match v with
  | VSlice _ (Some xs) => length xs
  | _ => 0
  end.

(** Go's [==] on two interface values: values of different dynamic types
    differ; values of the same comparable type are compared; comparing two
    values of the same slice or map type panics. *)
Definition iface_eq (x y : Value) : Run bool :=
  match x, y with
  | VNil, VNil => Ret true
  | VBool a, VBool b => Ret (Bool.eqb a b)
  | VInt a, VInt b => Ret (a =? b)%Z
  | VFloat a, VFloat b => Ret (PrimFloat.eqb a b)
  | VString a, VString b => Ret (String.eqb a b)
  | VSlice t _, VSlice u _ =>
      if GoType_eqb t u
      then Panic "runtime error: comparing uncomparable type"
      else Ret false
  | VMap k t _, VMap l u _ =>
      if GoType_eqb k l && GoType_eqb t u
      then Panic "runtime error: comparing uncomparable type"
      else Ret false
  | VPtr t p, VPtr u q =>
      if GoType_eqb t u
      then match p, q with
           | None, None => Ret true
           | Some (a, _), Some (b, _) => Ret (a =? b)%positive
           | _, _ => Ret false
           end
      else Ret false
  | _, _ => Ret false
  end.

(** ** [strings] *)

(** [strings.HasPrefix(s, prefix)] *)
Definition HasPrefix (s pre : string) : bool := String.prefix pre s.

(** [strings.Contains(s, substr)] *)
Fixpoint Contains (s substr : string) : bool :=
  String.prefix substr s ||
  match s with
  | EmptyString => false
  | String _ rest => Contains rest substr
  end.

Fixpoint dropChars (n : nat) (s : string) : string :=
  match n, s with
  | O, _ => s
  | Datatypes.S n', String _ rest => dropChars n' rest
  | Datatypes.S _, EmptyString => EmptyString
  end.

(** [strings.Replace(s, old, new, 1)]: the first occurrence only. *)
Fixpoint Replace1 (s old new : string) : string :=
  if String.prefix old s then new +:+ dropChars (String.length old) s
  else match s with
       | EmptyString => EmptyString
       | String c rest => String c (Replace1 rest old new)
       end.

(** [strings.Join] *)
Fixpoint Join (xs : list string) (sep : string) : string :=
  match xs with
  | [] => ""
  | [x] => x
  | x :: rest => x +:+ sep +:+ Join rest sep
  end.

(** ** Ranging over a Go map *)

(** Go leaves the order in which [range] visits a map unspecified.  A
    [MapRange] is one run's choice: the [range] statement numbered [site]
    visits the keys by increasing [visit site key] (ties in the map's own
    order).  Every order of a map's entries is the order of some run
    (lemma [rangeMap_visiting]). *)
Class MapRange := { visit : nat -> string -> nat }.

Definition visitedBefore `{MapRange} {V : Type} (site : nat)
    (a b : string * V) : Prop :=
  visit site a.1 <= visit site b.1.

#[global] Instance visitedBefore_dec `{MapRange} {V : Type} (site : nat) :
  RelDecision (@visitedBefore _ V site).
Proof. intros a b. unfold visitedBefore. apply _. Defined.

Definition rangeMap `{MapRange} {V : Type} (site : nat) (m : gmap string V)
  : list (string * V) :=
  merge_sort (visitedBefore site) (map_to_list m).

(** ** Libraries outside the repository *)

(** [net/url]: URLs, reference resolution and query encoding. *)
Class NetURL := {
  URL : Type;
  url_Parse : string -> Result URL;
  url_String : URL -> string;
  url_Scheme : URL -> string;
  url_Host : URL -> string;
  url_Path : URL -> string;
  ResolveReference : URL -> URL -> URL;
  Values_Encode : gmap string (list string) -> string
}.

(** [fmt.Sprintf("%v", x)] *)
Class Fmt := { Sprint : Value -> string }.

(** [net/http]: [textproto.CanonicalMIMEHeaderKey], applied by
    [http.Header.Add], and [http.NewRequest]. *)
Class NetHTTP := {
  CanonicalHeaderKey : string -> string;
  (** whether [http.NewRequest(method, url, body)] returns a request (it
      returns nil and an error for an invalid method or URL). *)
  NewRequest_ok : string -> string -> bool
}.

(** [mapstructure.Decode] into the two structs [cli/links.go] declares.
    [None] is a decoding error. *)
Record halLink := { Href : string }.

(** [halBody.Links], a [map[string]halLink]. *)
Record halBody := { halBody_Links : gmap string halLink }.

Record sirenLink := { sirenLink_Rel : list string; sirenLink_Href : string }.

(** [sirenBody.Links], a [[]sirenLink]. *)
Record sirenBody := { sirenBody_Links : list sirenLink }.

Class Mapstructure := {
  DecodeHAL : Value -> option halBody;
  DecodeSiren : Value -> option sirenBody
}.

(** ** [cli/links.go] *)

(** [Link] describes a hypermedia link to another resource. *)
Record Link := { Rel : string; URI : string }.

(** [github.com/tent/http-link-go]: [link.Parse] of a [Link] header; of
    each parsed link only [Rel] and [URI] are read. *)
Class HTTPLink := { link_Parse : string -> Result (list Link) }.

(** [Links], a [map[string][]*Link].  Every [*Link] is created by the parser
    that stores it and is reachable from one slice only, so a slice of
    pointers is the list of the links they point to. *)
Abbreviation Links := (gmap string (list Link)).

(** The fields of [Response] that the link parsers read and write.  The
    field [Links] is named [Links_] here, apart from its type, and is [None]
    while the map is nil. *)
Record Response := {
  Headers : gmap string string;
  Links_ : option Links;
  Body : Value
}.

Definition withLinks (resp : Response) (links : option Links) : Response :=
  {| Headers := Headers resp; Links_ := links; Body := Body resp |}.

(** [LinkParser]: [ParseLinks(resp *Response) error].  The response is
    handed back as the parser left it. *)
Record LinkParser := { parser_ParseLinks : Response -> Run (Response * option error) }.

(** [m[rel]]: a missing key, and any key of a nil map, reads as a nil
    slice. *)
Definition linksAt (links : option Links) (rel : string) : list Link :=
  match links with
  | Some m => default [] (m !! rel)
  | None => []
  end.

(** [resp.Links[rel] = append(resp.Links[rel], &Link{...})]: assigning to
    an entry of a nil map panics. *)
Definition appendLink (links : option Links) (rel : string) (l : Link)
  : Run (option Links) :=
  match links with
  | Some m => Ret (Some (<[rel := default [] (m !! rel) ++ [l]]> m))
  | None => Panic "assignment to entry in nil map"
  end.

(** [if resp.Links == nil { resp.Links = map[string][]*Link{} }] *)
Definition makeLinks (links : option Links) : option Links :=
  match links with
  | Some m => Some m
  | None => Some ∅
  end.

Section LinkParsers.
Context `{MapRange} `{NetURL} `{Fmt} `{Mapstructure} `{HTTPLink}.

(** [ParseLinks] runs [linkParsers] in order and stops at the first
    error. *)
Fixpoint runParsers (linkParsers : list LinkParser) (resp : Response)
  : Run (Response * option error) :=
  match linkParsers with
  | [] => Ret (resp, None)
  | parser :: rest =>
      match parser_ParseLinks parser resp with
      | Panic msg => Panic msg
      | Ret (resp', Some err) => Ret (resp', Some err)
      | Ret (resp', None) => runParsers rest resp'
      end
  end.

(** The inner loop of [ParseLinks]: each link's URI is parsed and
    replaced by its resolution against [base]; a URI that does not parse
    ends the loop with the remaining links untouched. *)
Fixpoint resolveLinks (base : URL) (links : list Link)
  : list Link * option error :=
  match links with
  | [] => ([], None)
  | l :: rest =>
      match url_Parse (URI l) with
      | Err err => (l :: rest, Some err)
      | Ok p =>
          let resolved := ResolveReference base p in
          let l' := {| Rel := Rel l; URI := url_String resolved |} in
          let '(rest', err) := resolveLinks base rest in
          (l' :: rest', err)
      end
  end.

(** The outer loop, over the entries [range resp.Links] visits. *)
Fixpoint resolveEntries (base : URL) (entries : list (string * list Link))
    (m : Links) : Links * option error :=
  match entries with
  | [] => (m, None)
  | (rel, links) :: rest =>
      match resolveLinks base links with
      | (links', Some err) => (<[rel := links']> m, Some err)
      | (links', None) => resolveEntries base rest (<[rel := links']> m)
      end
  end.

(** [ParseLinks] uses all registered LinkParsers to parse links for a
    response. *)
Definition ParseLinks (linkParsers : list LinkParser) (base : URL)
    (resp : Response) : Run (Response * option error) :=
  match runParsers linkParsers resp with
  | Panic msg => Panic msg
  | Ret (resp', Some err) => Ret (resp', Some err)
  | Ret (resp', None) =>
      match Links_ resp' with
      | None => Ret (resp', None)
      | Some m =>
          let '(m', err) := resolveEntries base (rangeMap 1 m) m in
          Ret (withLinks resp' (Some m'), err)
      end
  end.

(** [LinkHeaderParser.ParseLinks] *)
Definition LinkHeaderParser_ParseLinks (resp : Response)
  : Run (Response * option error) :=
  let header := default "" (Headers resp !! "Link") in
  if String.eqb header "" then Ret (resp, None)
  else
    match link_Parse header with
    | Err err => Ret (resp, Some err)
    | Ok links =>
        links' ← forRange (fun acc parsed =>
                    appendLink (makeLinks acc) (Rel parsed)
                      {| Rel := Rel parsed; URI := URI parsed |})
                  links (Links_ resp);
        Ret (withLinks resp links', None)
    end.

(** [HALParser.ParseLinks] *)
Definition HALParser_ParseLinks (resp : Response)
  : Run (Response * option error) :=
  match DecodeHAL (Body resp) with
  | Some hal =>
      links' ← forRange (fun acc entry =>
                  let '(rel, link) := entry in
                  if String.eqb rel "curies" then Ret acc
                  else appendLink acc rel {| Rel := rel; URI := Href link |})
                (rangeMap 2 (halBody_Links hal)) (Links_ resp);
      Ret (withLinks resp links', None)
  | None => Ret (resp, None)
  end.

(** [TerrificallySimpleJSONParser.walk]: the links map of [resp] is
    threaded through; the [error] result is always nil and is dropped. *)
Fixpoint walk (links : option Links) (key : string) (value : Value)
  : Run (option Links) :=
  match value with
  | VSlice _ (Some xs) =>
      forRange (fun acc x => walk acc (key +:+ "-item") x) xs links
  | VMap _ _ (Some kvs) =>
      forRange (fun acc kv =>
          match kv.1 with
          | VString s =>
              if String.eqb s "self"
              then appendLink (makeLinks acc) key
                     {| Rel := key; URI := Sprint kv.2 |}
              else walk acc s kv.2
          | k => walk acc (Sprint k) kv.2
          end) kvs links
  | VPtr _ (Some (_, v)) => walk links key v
  | VPtr _ None =>
      Panic "reflect: call of reflect.Value.Interface on zero Value"
  | _ => Ret links
  end.

(** [TerrificallySimpleJSONParser.ParseLinks] *)
Definition TerrificallySimpleJSONParser_ParseLinks (resp : Response)
  : Run (Response * option error) :=
  links' ← walk (Links_ resp) "self" (Body resp);
  Ret (withLinks resp links', None).

(** [SirenParser.ParseLinks] *)
Definition SirenParser_ParseLinks (resp : Response)
  : Run (Response * option error) :=
  match DecodeSiren (Body resp) with
  | Some siren =>
      links' ← forRange (fun acc link =>
                  if String.eqb (sirenLink_Href link) "" then Ret acc
                  else forRange (fun acc' rel =>
                         appendLink acc' rel
                           {| Rel := rel; URI := sirenLink_Href link |})
                       (sirenLink_Rel link) acc)
                (sirenBody_Links siren) (Links_ resp);
      Ret (withLinks resp links', None)
  | None => Ret (resp, None)
  end.

Definition LinkHeaderParser : LinkParser :=
  {| parser_ParseLinks := LinkHeaderParser_ParseLinks |}.
Definition HALParser : LinkParser :=
  {| parser_ParseLinks := HALParser_ParseLinks |}.
Definition TerrificallySimpleJSONParser : LinkParser :=
  {| parser_ParseLinks := TerrificallySimpleJSONParser_ParseLinks |}.
End LinkParsers.

(** ** [cli]: parameters and operations *)

(** [cli.StyleSimple], [cli.StyleForm] *)
Inductive Style : Type := StyleSimple | StyleForm.

(** [cli.Param], with the fields [openapiOperation] sets. *)
Record Param := {
  Param_Type : string;
  Param_Name : string;
  Param_DisplayName : string;
  Param_Description : string;
  Param_Style : Style;
  Param_Explode : bool;
  Param_Default : Value;
  Param_Example : Value
}.

(** [cli.Operation].  [Aliases], [Long] and [Examples] hold help text and
    are left out. *)
Record Operation := {
  Name : string;
  Short : string;
  Method : string;
  URITemplate : string;
  PathParams : list Param;
  QueryParams : list Param;
  HeaderParams : list Param;
  BodyMediaType : string;
  Hidden : bool
}.

(** [cli.API]; [CacheUntil] is a wall-clock time and is left out. *)
Record API := {
  API_Short : string;
  API_Long : string;
  Operations : list Operation
}.

(** ** [github.com/getkin/kin-openapi/openapi3]: the fields the loader
    reads.  A pointer that may be nil is an [option]; a [*XRef] whose
    [Value] may be nil as well is an [option (option X)].  An extension's
    [json.RawMessage] is kept as the JSON value it spells. *)
Module openapi3.

Inductive Schema : Type :=
  mkSchema (Type_ : string) (Items : option (option Schema))
           (Default Example : Value).

Definition Schema_Type (s : Schema) : string :=
  let 'mkSchema t _ _ _ := s in t.
Definition Schema_Items (s : Schema) : option (option Schema) :=
  let 'mkSchema _ i _ _ := s in i.
Definition Schema_Default (s : Schema) : Value :=
  let 'mkSchema _ _ d _ := s in d.
Definition Schema_Example (s : Schema) : Value :=
  let 'mkSchema _ _ _ e := s in e.

(** [openapi3.Parameter] ([Parameter] is a reserved word here). *)
Record ParameterDecl := {
  Parameter_Extensions : gmap string Value;
  Parameter_Name : string;
  Parameter_In : string;
  Parameter_Description : string;
  Parameter_Style : string;
  Explode : option bool;
  Parameter_Schema : option (option Schema);
  Parameter_Example : Value
}.

Record MediaType := {
  MediaType_Schema : option (option Schema);
  MediaType_Example : Value;
  (** [Examples], a [map[string]*ExampleRef]: per name, [None] when the
      reference's [Value] is nil, else the example's value. *)
  MediaType_Examples : gmap string (option Value)
}.

Record RequestBody := { Content : gmap string MediaType }.

Record Operation := {
  Operation_Extensions : gmap string Value;
  OperationID : string;
  Summary : string;
  Operation_Parameters : list (option ParameterDecl);
  Operation_RequestBody : option (option RequestBody)
}.

Record PathItem := {
  PathItem_Extensions : gmap string Value;
  PathItem_Parameters : list (option ParameterDecl);
  (** [PathItem.Operations()], by HTTP method. *)
  PathItem_Operations : gmap string Operation
}.

Record Server := { Server_URL : string }.

Record Info := { Title : string; Info_Description : string }.

Record Swagger := {
  Swagger_Info : option Info;
  Servers : list Server;
  Paths : gmap string PathItem
}.

End openapi3.

(** ** The [openapi] loader *)

(** OpenAPI extensions *)
Definition ExtName : string := "x-cli-name".
Definition ExtAliases : string := "x-cli-aliases".
Definition ExtDescription : string := "x-cli-description".
Definition ExtIgnore : string := "x-cli-ignore".
Definition ExtHidden : string := "x-cli-hidden".

(** [json.Unmarshal(raw, &flag)] for a [bool]: a JSON boolean is stored,
    [null] is a no-op, and anything else is an error that leaves [flag] as
    it was (the loader drops the error). *)
Definition unmarshalBool (raw : Value) (flag : bool) : bool :=
  match raw with
  | VBool b => b
  | _ => flag
  end.

(** [if ext[key] != nil { json.Unmarshal(ext[key].(json.RawMessage), &flag) }] *)
Definition extBool (ext : gmap string Value) (key : string) (flag : bool)
  : bool :=
  match ext !! key with
  | Some raw => unmarshalBool raw flag
  | None => flag
  end.

(** [extStr] returns the string value of an OpenAPI extension stored as a
    JSON raw message. *)
Definition extStr (ext : gmap string Value) (key : string) : string :=
  match ext !! key with
  | Some (VString decoded) => decoded
  | _ => ""
  end.

(** [Resolver] is able to resolve relative URIs against a base. *)
Class Resolver `{NetURL} := { Resolve : string -> Result URL }.

(** [github.com/gosimple/slug] *)
Class Slug := { slug_Make : string -> string }.

(** What [getRequestInfo] keeps per media type: the schema and the
    examples. *)
Definition requestInfo : Type := option openapi3.Schema * list Value.

Section Loader.
Context `{MapRange} `{NetURL} `{Slug}.

(** The examples of one media type: [item.Example] when set, else the
    first of [item.Examples] whose reference is resolved. *)
Definition mediaTypeExamples (item : openapi3.MediaType) : list Value :=
  match openapi3.MediaType_Example item with
  | VNil =>
      match list_find (fun ex => bool_decide (ex.2 <> None))
                      (rangeMap 4 (openapi3.MediaType_Examples item)) with
      | Some (_, (_, Some v)) => [v]
      | _ => []
      end
  | example => [example]
  end.

Definition mediaTypeInfo (item : openapi3.MediaType) : requestInfo :=
  (match openapi3.MediaType_Schema item with
   | Some (Some schema) => Some schema
   | _ => None
   end,
   mediaTypeExamples item).

(** [for mt, item := range mts { if strings.Contains(mt, part) { return } }] *)
Definition firstContaining (part : string)
    (entries : list (string * requestInfo)) : option (string * requestInfo) :=
  List.find (fun entry => Contains entry.1 part) entries.

(** [getRequestInfo], given the request body's [Content]. *)
Definition getRequestInfo' (content : gmap string openapi3.MediaType)
  : string * requestInfo :=
  let mts := mediaTypeInfo <$> content in
  (* Prefer JSON. *)
  match firstContaining "json" (rangeMap 5 mts) with
  | Some found => found
  | None =>
      (* Fall back to YAML next. *)
      match firstContaining "yaml" (rangeMap 6 mts) with
      | Some found => found
      | None =>
          (* Last resort: return the first we find! *)
          match rangeMap 7 mts with
          | found :: _ => found
          | [] => ("", (None, []))
          end
      end
  end.

(** [getRequestInfo] *)
Definition getRequestInfo (op : openapi3.Operation) : string * requestInfo :=
  match openapi3.Operation_RequestBody op with
  | Some (Some body) => getRequestInfo' (openapi3.Content body)
  | _ => getRequestInfo' ∅
  end.

(** The parameter loop's body in [openapiOperation]: one declared
    parameter compiled to a [cli.Param].  An array schema without [Items]
    is a nil dereference. *)
Definition compileParam (p : openapi3.ParameterDecl) : Run Param :=
  '(typ, def, example) ←
    match openapi3.Parameter_Schema p with
    | Some (Some schema) =>
        typ ← (if String.eqb (openapi3.Schema_Type schema) "array"
               then match openapi3.Schema_Items schema with
                    | Some (Some items) =>
                        Ret (openapi3.Schema_Type schema +:+ "["
                               +:+ openapi3.Schema_Type items +:+ "]")
                    | _ => Panic "invalid memory address or nil pointer dereference"
                    end
               else Ret (openapi3.Schema_Type schema));
        Ret (typ, openapi3.Schema_Default schema, openapi3.Schema_Example schema)
    | _ => Ret ("string", VNil, VNil)
    end;
  let example := match openapi3.Parameter_Example p with
                 | VNil => example
                 | e => e
                 end in
  let style := if String.eqb (openapi3.Parameter_Style p) "form"
               then StyleForm else StyleSimple in
  let explode := default false (openapi3.Explode p) in
  let displayName := extStr (openapi3.Parameter_Extensions p) ExtName in
  Ret {| Param_Type := typ;
         Param_Name := openapi3.Parameter_Name p;
         Param_DisplayName := displayName;
         Param_Description := openapi3.Parameter_Description p;
         Param_Style := style;
         Param_Explode := explode;
         Param_Default := def;
         Param_Example := example |}.

(** [pathParams], [queryParams] and [headerParams] while the loop runs. *)
Record paramLists := {
  pathParams : list Param;
  queryParams : list Param;
  headerParams : list Param
}.

Definition addParam (acc : paramLists) (p : option openapi3.ParameterDecl)
  : Run paramLists :=
  match p with
  | None => Ret acc
  | Some p =>
      param ← compileParam p;
      let location := openapi3.Parameter_In p in
      Ret (if String.eqb location "path" then
             {| pathParams := pathParams acc ++ [param];
                queryParams := queryParams acc;
                headerParams := headerParams acc |}
           else if String.eqb location "query" then
             {| pathParams := pathParams acc;
                queryParams := queryParams acc ++ [param];
                headerParams := headerParams acc |}
           else if String.eqb location "header" then
             {| pathParams := pathParams acc;
                queryParams := queryParams acc;
                headerParams := headerParams acc ++ [param] |}
           else acc)
  end.

(** [openapiOperation] *)
Definition openapiOperation (method : string) (uriTemplate : URL)
    (path : openapi3.PathItem) (op : openapi3.Operation) : Run Operation :=
  let combinedParams :=
    openapi3.PathItem_Parameters path ++ openapi3.Operation_Parameters op in
  params ← forRange addParam combinedParams
             {| pathParams := []; queryParams := []; headerParams := [] |};
  let name :=
    let override := extStr (openapi3.Operation_Extensions op) ExtName in
    if String.eqb override "" then slug_Make (openapi3.OperationID op)
    else override in
  let hidden := extBool (openapi3.PathItem_Extensions path) ExtHidden false in
  let mediaType :=
    match openapi3.Operation_RequestBody op with
    | Some (Some _) => (getRequestInfo op).1
    | _ => ""
    end in
  Ret {| Name := name;
         Short := openapi3.Summary op;
         Method := method;
         URITemplate := url_String uriTemplate;
         PathParams := pathParams params;
         QueryParams := queryParams params;
         HeaderParams := headerParams params;
         BodyMediaType := mediaType;
         Hidden := hidden |}.

(** The base-path loop of [loadOpenAPI3]. *)
Fixpoint findBasePath (prefix : string) (servers : list openapi3.Server)
    (basePath : string) : Result string :=
  match servers with
  | [] => Ok basePath
  | s :: rest =>
      if HasPrefix (openapi3.Server_URL s) prefix then
        match url_Parse (openapi3.Server_URL s) with
        | Err err => Err err
        | Ok base => findBasePath prefix rest (url_Path base)
        end
      else findBasePath prefix rest basePath
  end.

(** The loop over [path.Operations()]; [ignore] is the variable of the
    enclosing iteration. *)
Fixpoint compileOperations (resolved : URL) (path : openapi3.PathItem)
    (entries : list (string * openapi3.Operation)) (ignore : bool)
    (operations : list Operation) : Run (list Operation) :=
  match entries with
  | [] => Ret operations
  | (method, operation) :: rest =>
      let ignore := extBool (openapi3.PathItem_Extensions path) ExtIgnore ignore in
      if ignore then
        (* Ignore this operation. *)
        compileOperations resolved path rest ignore operations
      else
        op ← openapiOperation method resolved path operation;
        compileOperations resolved path rest ignore (operations ++ [op])
  end.

(** The loop over [swagger.Paths]. *)
Fixpoint compilePaths `{!Resolver} (basePath : string)
    (entries : list (string * openapi3.PathItem))
    (operations : list Operation) : Run (Result (list Operation)) :=
  match entries with
  | [] => Ret (Ok operations)
  | (uri, path) :: rest =>
      let ignore := extBool (openapi3.PathItem_Extensions path) ExtIgnore false in
      if ignore then
        (* Ignore this path. *)
        compilePaths basePath rest operations
      else
        match Resolve (basePath +:+ uri) with
        | Err err => Ret (Err err)
        | Ok resolved =>
            operations' ← compileOperations resolved path
                            (rangeMap 9 (openapi3.PathItem_Operations path))
                            ignore operations;
            compilePaths basePath rest operations'
        end
  end.

(** [loadOpenAPI3], from the decoded document on. *)
Definition loadOpenAPI3 `{!Resolver} (location : URL)
    (swagger : openapi3.Swagger) : Run (Result API) :=
  (* See if this server has any base path prefix we need to account for. *)
  let prefix := url_Scheme location +:+ "://" +:+ url_Host location in
  match findBasePath prefix (openapi3.Servers swagger) "" with
  | Err err => Ret (Err err)
  | Ok basePath =>
      compiled ← compilePaths basePath (rangeMap 8 (openapi3.Paths swagger)) [];
      match compiled with
      | Err err => Ret (Err err)
      | Ok operations =>
          let '(short, long) :=
            match openapi3.Swagger_Info swagger with
            | Some info => (openapi3.Title info, openapi3.Info_Description info)
            | None => ("", "")
            end in
          Ret (Ok {| API_Short := short; API_Long := long;
                     Operations := operations |})
      end
  end.

(** [loader.Resolve]: the relative URI is parsed and resolved against the
    entrypoint. *)
Definition loader_Resolve (base : URL) (relURI : string) : Result URL :=
  match url_Parse relURI with
  | Err err => Err err
  | Ok parsed => Ok (ResolveReference base parsed)
  end.

End Loader.

(** ** [cli/operation.go]: the command of an operation *)

(** The methods of [cli.Param] and [cli.GetBody]; they are declared outside
    the files modelled here. *)
Class ParamMethods := {
  (** [Param.Parse]: a command-line argument to a typed value. *)
  Parse : Param -> string -> Result Value;
  (** [Param.Serialize]: a bound value to its wire strings. *)
  Serialize : Param -> Value -> list string;
  (** [GetBody(mediaType, args)] *)
  GetBody : string -> list string -> Result string
}.

(** What the transport is handed: [http.NewRequest(method, uri, body)] with
    [req.Header = headers]. *)
Record Request := {
  Request_Method : string;
  Request_URI : string;
  Request_Header : gmap string (list string);
  Request_Body : option string
}.

(** How one invocation of the command ends. *)
Inductive Outcome : Type :=
| Sent (req : Request)      (** [MakeRequestAndFormat(req)] is reached *)
| Fatal (msg : string)      (** [log.Fatalf]: the message is logged and the
                                process exits *)
| ArgsError (msg : string). (** [cobra] rejects the argument count and does
                                not call [Run] *)

(** [url.Values.Add], [http.Header.Add] (the latter on the canonical key) *)
Definition Add (values : gmap string (list string)) (key value : string)
  : gmap string (list string) :=
  <[key := default [] (values !! key) ++ [value]]> values.

(** [reflect.ValueOf(flags[name]).Elem()]: the value the flag's pointer
    holds; an unregistered name is a nil interface, whose [Elem] panics. *)
Definition flagValue (flags : gmap string Value) (name : string) : Run Value :=
  match flags !! name with
  | Some v => Ret v
  | None => Panic "reflect: call of reflect.Value.Elem on zero Value"
  end.

(** [param.Default == nil] *)
Definition isNilInterface (v : Value) : bool :=
  match v with
  | VNil => true
  | _ => false
  end.

(** The two guards at the head of the query loop: [true] when the
    parameter is skipped ([continue]). *)
Definition querySkips (param : Param) (v : Value) : Run bool :=
  same ← iface_eq v (Param_Default param);
  if same : bool then
    (* No need to send the default value. Just skip it. *)
    Ret true
  else if isNilInterface (Param_Default param) then
    (* No explicit default, so the implied default is the zero value. *)
    IsZero v
  else Ret false.

(** The guards at the head of the header loop. *)
Definition headerSkips (param : Param) (rv : Value) : Run bool :=
  same ← iface_eq rv (Param_Default param);
  if same : bool then
    (* No need to send the default value. Just skip it. *)
    Ret true
  else if isNilInterface (Param_Default param) then
    zero ← IsZero rv;
    if zero : bool then Ret true
    else
      (* IsZero() above fails for empty arrays, so if it's empty let's
         ignore it. *)
      Ret (match Kind_of rv with
           | KSlice => (Len rv =? 0)%nat
           | _ => false
           end)
  else Ret false.

Section Command.
Context `{NetURL} `{NetHTTP} `{Fmt} `{ParamMethods}.

(** The path-parameter loop of [Run]: [inl uri] when every argument
    parses, [inr msg] when [log.Fatalf] is reached. *)
Fixpoint substitutePath (params : list Param) (args : list string)
    (uri : string) : Run (string + string) :=
  match params with
  | [] => Ret (inl uri)
  | param :: rest =>
      match args with
      | [] => Panic "index out of range"
      | arg :: args' =>
          match Parse param arg with
          | Err err =>
              match Serialize param (VString arg) with
              | value :: _ =>
                  Ret (inr ("could not parse param " +:+ Param_Name param
                            +:+ " with input " +:+ value +:+ ": " +:+ err))
              | [] => Panic "index out of range"
              end
          | Ok value =>
              (* Replaces URL-encoded `{`+name+`}` in the template. *)
              substitutePath rest args'
                (Replace1 uri ("{" +:+ Param_Name param +:+ "}") (Sprint value))
          end
      end
  end.

(** The query loop. *)
Definition buildQuery (flags : gmap string Value) (params : list Param)
  : Run (gmap string (list string)) :=
  forRange (fun query param =>
      v ← flagValue flags (Param_Name param);
      skip ← querySkips param v;
      if skip : bool then Ret query
      else Ret (fold_left (fun q s => Add q (Param_Name param) s)
                          (Serialize param v) query))
    params ∅.

(** The header loop. *)
Definition buildHeaders (flags : gmap string Value) (params : list Param)
  : Run (gmap string (list string)) :=
  forRange (fun headers param =>
      rv ← flagValue flags (Param_Name param);
      skip ← headerSkips param rv;
      if skip : bool then Ret headers
      else Ret (fold_left
                  (fun h s => Add h (CanonicalHeaderKey (Param_Name param)) s)
                  (Serialize param rv) headers))
    params ∅.

(** [uri] with the encoded query appended. *)
Definition appendQuery (uri queryEncoded : string) : string :=
  if String.eqb queryEncoded "" then uri
  else (if Contains uri "?" then uri +:+ "&" else uri +:+ "?") +:+ queryEncoded.

(** The [Run] function of the command [Operation.command] returns, for the
    positional arguments [args] and the bound flag values [flags]. *)
Definition command_Run (o : Operation) (flags : gmap string Value)
    (args : list string) : Run Outcome :=
  substituted ← substitutePath (PathParams o) args (URITemplate o);
  match substituted with
  | inr msg => Ret (Fatal msg)
  | inl uri =>
      query ← buildQuery flags (QueryParams o);
      let uri := appendQuery uri (Values_Encode query) in
      headers ← buildHeaders flags (HeaderParams o);
      body ← (if String.eqb (BodyMediaType o) "" then Ret None
              else match GetBody (BodyMediaType o)
                           (drop (length (PathParams o)) args) with
                   | Err err => Panic err
                   | Ok b => Ret (Some b)
                   end);
      if NewRequest_ok (Method o) uri then
        Ret (Sent {| Request_Method := Method o; Request_URI := uri;
                     Request_Header := headers; Request_Body := body |})
      else Panic "invalid memory address or nil pointer dereference"
  end.

(** The command run by [cobra]: [Args] is [ExactArgs(len(PathParams))], or
    [MinimumNArgs] of it when the operation takes a body, and is checked
    before [Run]. *)
Definition command (o : Operation) (flags : gmap string Value)
    (args : list string) : Run Outcome :=
  let n := length (PathParams o) in
  let accepted := if String.eqb (BodyMediaType o) ""
                  then (length args =? n)%nat else (n <=? length args)%nat in
  if accepted then command_Run o flags args
  else Ret (ArgsError "wrong number of arguments").

End Command.

(** ** Concrete libraries, for evaluating examples

    Small implementations of the interfaces above.  Each covers the inputs
    the examples use and says where it stops; no general theorem depends on
    them. *)
Module Example.

(** *** Two runs' visiting orders *)

(** Every [range] visits the map in its own order. *)
Definition inOrder : MapRange := {| visit := fun _ _ => 0 |}.

(** Every [range] visits the key [first] before the others. *)
Definition startingAt (first : string) : MapRange :=
  {| visit := fun _ key => if String.eqb key first then 0 else 1 |}.

(** *** [net/url] for references of the forms [scheme://host/path],
    [//host/path], [/path] and [path], without user, port rules, query,
    fragment, escapes or dot segments, and without a character that
    [URL.String] would escape (a brace, a space, ...). *)
Record simpleURL := { Scheme : string; Host : string; Path : string }.

(** [s] cut at the first [sep]. *)
Fixpoint cut (s sep : string) : option (string * string) :=
  if String.prefix sep s then Some ("", dropChars (String.length sep) s)
  else match s with
       | EmptyString => None
       | String c rest =>
           match cut rest sep with
           | Some (before, after) => Some (String c before, after)
           | None => None
           end
       end.

Definition isLetter (c : ascii) : bool :=
  let n := nat_of_ascii c in
  ((65 <=? n) && (n <=? 90) || (97 <=? n) && (n <=? 122))%nat.

(** A scheme: a letter, then letters, digits, [+], [-] and [.]. *)
Definition isSchemeChar (c : ascii) : bool :=
  let n := nat_of_ascii c in
  isLetter c || ((48 <=? n) && (n <=? 57))%nat
  || Ascii.eqb c "+" || Ascii.eqb c "-" || Ascii.eqb c ".".

Definition isScheme (s : string) : bool :=
  match s with
  | EmptyString => false
  | String c rest => isLetter c && forallb isSchemeChar (list_ascii_of_string rest)
  end.

(** The first path segment of [s] holds a colon that no scheme ends. *)
Definition colonInFirstSegment (s : string) : bool :=
  match cut s ":" with
  | Some (before, _) => negb (Contains before "/") && negb (isScheme before)
  | None => false
  end.

(** [host/path] split into the authority and the path. *)
Definition splitAuthority (scheme rest : string) : simpleURL :=
  match cut rest "/" with
  | Some (host, path) => {| Scheme := scheme; Host := host; Path := "/" +:+ path |}
  | None => {| Scheme := scheme; Host := rest; Path := "" |}
  end.

Definition simpleParse (s : string) : Result simpleURL :=
  if String.prefix ":" s then Err "missing protocol scheme"
  else if colonInFirstSegment s
  then Err "first path segment in URL cannot contain colon"
  else if String.prefix "//" s then Ok (splitAuthority "" (dropChars 2 s))
  else match cut s "://" with
       | Some (scheme, rest) =>
           if isScheme scheme then Ok (splitAuthority scheme rest)
           else Ok {| Scheme := ""; Host := ""; Path := s |}
       | None => Ok {| Scheme := ""; Host := ""; Path := s |}
       end.

(** [URL.String]; nothing is escaped. *)
Definition simpleString (u : simpleURL) : string :=
  (if String.eqb (Scheme u) "" then "" else Scheme u +:+ ":")
  +:+ (if String.eqb (Scheme u) "" && String.eqb (Host u) "" then ""
       else "//" +:+ Host u)
  +:+ Path u.

(** [base] up to and including its last slash. *)
Fixpoint directory (base : string) : string :=
  match base with
  | EmptyString => ""
  | String c rest =>
      if Contains rest "/" then String c (directory rest)
      else if Ascii.eqb c "/" then "/" else ""
  end.

Definition simpleResolve (base ref : simpleURL) : simpleURL :=
  if negb (String.eqb (Scheme ref) "") then ref
  else if negb (String.eqb (Host ref) "") then
    {| Scheme := Scheme base; Host := Host ref; Path := Path ref |}
  else
    let full := if String.eqb (Path ref) "" then Path base
                else if String.prefix "/" (Path ref) then Path ref
                else directory (Path base) +:+ Path ref in
    {| Scheme := Scheme base; Host := Host base;
       Path := if String.eqb full "" || String.prefix "/" full
               then full else "/" +:+ full |}.

Definition keyBefore (a b : string * list string) : Prop :=
  String.leb a.1 b.1.

#[global] Instance keyBefore_dec : RelDecision keyBefore.
Proof. intros a b. unfold keyBefore. apply _. Defined.

(** [Values.Encode]: [key=value] pairs, sorted by key, joined by [&];
    nothing is escaped. *)
Definition simpleEncode (values : gmap string (list string)) : string :=
  Join (flat_map (fun entry => map (fun v => entry.1 +:+ "=" +:+ v) entry.2)
                 (merge_sort keyBefore (map_to_list values))) "&".

Definition url : NetURL := {|
  URL := simpleURL;
  url_Parse := simpleParse;
  url_String := simpleString;
  url_Scheme := Scheme;
  url_Host := Host;
  url_Path := Path;
  ResolveReference := simpleResolve;
  Values_Encode := simpleEncode
|}.

(** *** [fmt]'s [%v] for nil, booleans, integers and strings; a slice
    prints its elements between brackets, a map its entries in the order
    listed, a pointer its address, and a float only its class. *)
Fixpoint simpleSprint (v : Value) : string :=
  match v with
  | VNil => "<nil>"
  | VBool b => if b then "true" else "false"
  | VInt n => pretty n
  | VFloat f => if zeroBits f then "0" else "float64"
  | VString s => s
  | VSlice _ None => "[]"
  | VSlice _ (Some xs) => "[" +:+ Join (map simpleSprint xs) " " +:+ "]"
  | VMap _ _ None => "map[]"
  | VMap _ _ (Some kvs) =>
      "map[" +:+ Join (map (fun kv => simpleSprint kv.1 +:+ ":" +:+ simpleSprint kv.2)
                           kvs) " " +:+ "]"
  | VPtr _ None => "<nil>"
  | VPtr _ (Some (addr, _)) => "0x" +:+ pretty addr
  end.

Definition fmt : Fmt := {| Sprint := simpleSprint |}.

(** *** [mapstructure]'s strict decoding of a JSON-like body *)

Definition lowerChar (c : ascii) : ascii :=
  let n := nat_of_ascii c in
  if ((65 <=? n) && (n <=? 90))%nat then ascii_of_nat (n + 32) else c.

Fixpoint lower (s : string) : string :=
  match s with
  | EmptyString => EmptyString
  | String c rest => String (lowerChar c) (lower rest)
  end.

(** The entry a struct field named [field] is read from: the key equal to
    it, else the first key equal up to case. *)
Definition fieldOf (field : string) (kvs : list (Value * Value)) : option Value :=
  let keyIs (same : string -> bool) (kv : Value * Value) :=
    match kv.1 with
    | VString k => same k
    | _ => false
    end in
  match List.find (keyIs (String.eqb field)) kvs with
  | Some kv => Some kv.2
  | None =>
      match List.find (keyIs (fun k => String.eqb (lower k) (lower field))) kvs with
      | Some kv => Some kv.2
      | None => None
      end
  end.

(** A [string] field: absent and null leave it empty; only a string
    decodes. *)
Definition decodeString (v : option Value) : option string :=
  match v with
  | None | Some VNil => Some ""
  | Some (VString s) => Some s
  | Some _ => None
  end.

Definition decodeHalLink (v : Value) : option halLink :=
  match v with
  | VNil => Some {| Href := "" |}
  | VMap _ _ kvs =>
      href ← decodeString (fieldOf "href" (default [] kvs));
      Some {| Href := href |}
  | _ => None
  end.

Fixpoint decodeHalLinks (kvs : list (Value * Value)) : option (gmap string halLink) :=
  match kvs with
  | [] => Some ∅
  | (VString rel, v) :: rest =>
      link ← decodeHalLink v;
      links ← decodeHalLinks rest;
      Some (<[rel := link]> links)
  | _ :: _ => None
  end.

Definition simpleDecodeHAL (body : Value) : option halBody :=
  match body with
  | VNil => Some {| halBody_Links := ∅ |}
  | VMap _ _ kvs =>
      match fieldOf "_links" (default [] kvs) with
      | None | Some VNil => Some {| halBody_Links := ∅ |}
      | Some (VMap _ _ links) =>
          links ← decodeHalLinks (default [] links);
          Some {| halBody_Links := links |}
      | Some _ => None
      end
  | _ => None
  end.

Fixpoint decodeStrings (xs : list Value) : option (list string) :=
  match xs with
  | [] => Some []
  | VString s :: rest => rest' ← decodeStrings rest; Some (s :: rest')
  | _ :: _ => None
  end.

Definition decodeSirenLink (v : Value) : option sirenLink :=
  match v with
  | VNil => Some {| sirenLink_Rel := []; sirenLink_Href := "" |}
  | VMap _ _ kvs =>
      rel ← match fieldOf "rel" (default [] kvs) with
            | None | Some VNil => Some []
            | Some (VSlice _ xs) => decodeStrings (default [] xs)
            | Some _ => None
            end;
      href ← decodeString (fieldOf "href" (default [] kvs));
      Some {| sirenLink_Rel := rel; sirenLink_Href := href |}
  | _ => None
  end.

Definition simpleDecodeSiren (body : Value) : option sirenBody :=
  match body with
  | VNil => Some {| sirenBody_Links := [] |}
  | VMap _ _ kvs =>
      match fieldOf "links" (default [] kvs) with
      | None | Some VNil => Some {| sirenBody_Links := [] |}
      | Some (VSlice _ xs) =>
          links ← mapM decodeSirenLink (default [] xs);
          Some {| sirenBody_Links := links |}
      | Some _ => None
      end
  | _ => None
  end.

Definition mapstructure : Mapstructure :=
  {| DecodeHAL := simpleDecodeHAL; DecodeSiren := simpleDecodeSiren |}.

(** *** [link.Parse] for one link written [<uri>; rel=name] *)
Definition simpleLinkParse (header : string) : Result (list Link) :=
  if String.prefix "<" header then
    match cut (dropChars 1 header) ">; rel=" with
    | Some (uri, rel) => Ok [{| Rel := rel; URI := uri |}]
    | None => Err "link: invalid format"
    end
  else Err "link: invalid format".

Definition httplink : HTTPLink := {| link_Parse := simpleLinkParse |}.

(** *** [net/http] for header names of letters, digits and hyphens *)
Definition upperChar (c : ascii) : ascii :=
  let n := nat_of_ascii c in
  if ((97 <=? n) && (n <=? 122))%nat then ascii_of_nat (n - 32) else c.

Fixpoint canonical (upper : bool) (s : string) : string :=
  match s with
  | EmptyString => EmptyString
  | String c rest =>
      String (if upper then upperChar c else lowerChar c)
             (canonical (Ascii.eqb c "-") rest)
  end.

Definition http : NetHTTP := {|
  CanonicalHeaderKey := canonical true;
  NewRequest_ok := fun method uri =>
    negb (Contains method " ") &&
    match simpleParse uri with
    | Ok _ => true
    | Err _ => false
    end
|}.

(** *** [slug.Make] for names of letters, digits, underscores and single
    spaces between them: letters are lowered, a space becomes a hyphen and
    an underscore is kept. *)
Fixpoint simpleSlug (s : string) : string :=
  match s with
  | EmptyString => EmptyString
  | String c rest =>
      String (if Ascii.eqb c " " then "-"%char else lowerChar c)
             (simpleSlug rest)
  end.

Definition slug : Slug := {| slug_Make := simpleSlug |}.

(** *** The methods of [cli.Param] *)

Fixpoint digitsValue (acc : Z) (s : string) : option Z :=
  match s with
  | EmptyString => Some acc
  | String c rest =>
      let n := nat_of_ascii c in
      if ((48 <=? n) && (n <=? 57))%nat
      then digitsValue (10 * acc + Z.of_nat (n - 48)) rest
      else None
  end.

Definition parseInteger (s : string) : option Z :=
  match s with
  | EmptyString => None
  | String "-" EmptyString => None
  | String "-" rest => Z.opp <$> digitsValue 0 rest
  | _ => digitsValue 0 s
  end.

(** Modelled from the spec: [Param.Parse] (declared in a file of [cli] that
    is not among the sources), section 4.2: a command-line string becomes a
    typed value, and text that is not numeric fails for an integer
    parameter.  Only the scalar types [string], [integer] and [boolean] are
    covered; an argument for any other type is refused. *)
Definition specParse (p : Param) (arg : string) : Result Value :=
  if String.eqb (Param_Type p) "string" then Ok (VString arg)
  else if String.eqb (Param_Type p) "integer" then
    match parseInteger arg with
    | Some n => Ok (VInt n)
    | None => Err "invalid syntax"
    end
  else if String.eqb (Param_Type p) "boolean" then
    if String.eqb arg "true" then Ok (VBool true)
    else if String.eqb arg "false" then Ok (VBool false)
    else Err "invalid syntax"
  else Err "unsupported type".

(** Modelled from the spec: [Param.Serialize] (declared in a file of [cli]
    that is not among the sources), section 4.2: a scalar yields one string,
    its textual form; an array yields one comma-joined string under the
    simple style and under the form style without explode, and one string
    per element under the form style with explode. *)
Definition specSerialize (p : Param) (v : Value) : list string :=
  match v with
  | VSlice _ xs =>
      let items := map simpleSprint (default [] xs) in
      match Param_Style p, Param_Explode p with
      | StyleForm, true => items
      | _, _ => [Join items ","]
      end
  | _ => [simpleSprint v]
  end.

(** [GetBody] stands for the body builder: the arguments joined by
    spaces. *)
Definition params : ParamMethods := {|
  Parse := specParse;
  Serialize := specSerialize;
  GetBody := fun _ args => Ok (Join args " ")
|}.

(** *** The loader as [Resolver], for the entrypoint [base] *)
Definition resolver (base : simpleURL) : @Resolver url :=
  {| Resolve := @loader_Resolve url base |}.

End Example.

(** ** Notions used to state the properties *)

(** The key under which [walk] continues below the map entry keyed [k]. *)
Definition keyText `{Fmt} (k : Value) : string :=
  match k with
  | VString s => s
  | _ => Sprint k
  end.





(** [links] with each link of [found] appended under its relation. *)
Definition fileLinks (links : option Links) (found : list Link) : option Links :=
  fold_left (fun acc l =>
      let m := default ∅ acc in
      Some (<[Rel l := default [] (m !! Rel l) ++ [l]]> m))
    found links.

(** A link with its URI resolved against [base]; a URI that does not parse
    is kept. *)
Definition resolved `{NetURL} (base : URL) (l : Link) : Link :=
  match url_Parse (URI l) with
  | Ok p => {| Rel := Rel l; URI := url_String (ResolveReference base p) |}
  | Err _ => l
  end.

Definition parses `{NetURL} (l : Link) : Prop :=
  exists p, url_Parse (URI l) = Ok p.

(** A HAL link that is stored: any relation but [curies]. *)
Definition halRecordable (rel : string) : bool := negb (String.eqb rel "curies").

(** A Siren link that is stored at least once: it has an href and a
    relation. *)
Definition sirenRecordable (link : sirenLink) : bool :=
  negb (String.eqb (sirenLink_Href link) "") &&
  negb (bool_decide (sirenLink_Rel link = [])).

(** JSON objects and arrays as decoded into [interface{}]. *)
Definition object (fields : list (string * Value)) : Value :=
  VMap TString TInterface (Some (map (fun kv => (VString kv.1, kv.2)) fields)).

Definition array (items : list Value) : Value :=
  VSlice TInterface (Some items).

(** ** Induction on values *)

Section ValueInduction.
Variable P : Value -> Prop.
Hypothesis Hnil : P VNil.
Hypothesis Hbool : forall b, P (VBool b).
Hypothesis Hint : forall n, P (VInt n).
Hypothesis Hfloat : forall f, P (VFloat f).
Hypothesis Hstring : forall s, P (VString s).
Hypothesis Hslice0 : forall t, P (VSlice t None).
Hypothesis Hslice : forall t xs, Forall P xs -> P (VSlice t (Some xs)).
Hypothesis Hmap0 : forall k t, P (VMap k t None).
Hypothesis Hmap : forall k t kvs,
  Forall (fun kv => P kv.1 /\ P kv.2) kvs -> P (VMap k t (Some kvs)).
Hypothesis Hptr0 : forall t, P (VPtr t None).
Hypothesis Hptr : forall t addr v, P v -> P (VPtr t (Some (addr, v))).

(** Induction on a value, with the hypothesis for every element of a
    slice and every key and value of a map. *)
Fixpoint Value_nested_ind (v : Value) : P v :=
  match v with
  | VNil => Hnil
  | VBool b => Hbool b
  | VInt n => Hint n
  | VFloat f => Hfloat f
  | VString s => Hstring s
  | VSlice t None => Hslice0 t
  | VSlice t (Some xs) =>
      Hslice t xs
        ((fix all (l : list Value) : Forall P l :=
            match l with
            | [] => Forall_nil_2 P
            | x :: rest => Forall_cons_2 P x rest (Value_nested_ind x) (all rest)
            end) xs)
  | VMap k t None => Hmap0 k t
  | VMap k t (Some kvs) =>
      Hmap k t kvs
        ((fix all (l : list (Value * Value))
            : Forall (fun kv => P kv.1 /\ P kv.2) l :=
            match l with
            | [] => Forall_nil_2 _
            | kv :: rest =>
                Forall_cons_2 _ kv rest
                  (conj (Value_nested_ind kv.1) (Value_nested_ind kv.2))
                  (all rest)
            end) kvs)
  | VPtr t None => Hptr0 t
  | VPtr t (Some (addr, v')) => Hptr t addr v' (Value_nested_ind v')
  end.
End ValueInduction.

(** ** Inputs of the examples *)

(** A HAL body and a Siren body, each with one link. *)
Definition halPage : Value :=
  object [("_links", object [("next", object [("href", VString "/page/2")])])].

Definition sirenPage : Value :=
  object [("links", array [object [("rel", array [VString "next"]);
                                   ("href", VString "/page/2")]])].





Definition widgets : Response :=
  {| Headers := ∅; Links_ := None;
     Body := object [("next", object [("self", VString "/widgets/9")])] |}.

Definition widgetsURL : Example.simpleURL :=
  {| Example.Scheme := "https"; Example.Host := "api.example.com";
     Example.Path := "/widgets" |}.

(** A media type without schema or examples. *)
Definition plainMediaType : openapi3.MediaType :=
  {| openapi3.MediaType_Schema := None;
     openapi3.MediaType_Example := VNil;
     openapi3.MediaType_Examples := ∅ |}.

(** An operation with no parameters whose request body declares the
    media types [mts]. *)
Definition operationWithBody (mts : list string) : openapi3.Operation :=
  {| openapi3.Operation_Extensions := ∅;
     openapi3.OperationID := "create widget";
     openapi3.Summary := "";
     openapi3.Operation_Parameters := [];
     openapi3.Operation_RequestBody :=
       Some (Some {| openapi3.Content :=
                       list_to_map (map (fun mt => (mt, plainMediaType)) mts) |}) |}.

Definition emptyPathItem : openapi3.PathItem :=
  {| openapi3.PathItem_Extensions := ∅;
     openapi3.PathItem_Parameters := [];
     openapi3.PathItem_Operations := ∅ |}.

(** The declared parameters located in [location], in declaration order;
    a reference whose [Value] is nil declares none. *)
Definition declaredIn (location : string)
    (decls : list (option openapi3.ParameterDecl)) : list openapi3.ParameterDecl :=
  List.filter (fun p => String.eqb (openapi3.Parameter_In p) location)
              (omap id decls).

(** A path parameter [id] whose schema has the type [type]. *)
Definition idParameter (type : string) : openapi3.ParameterDecl :=
  {| openapi3.Parameter_Extensions := ∅;
     openapi3.Parameter_Name := "id";
     openapi3.Parameter_In := "path";
     openapi3.Parameter_Description := "";
     openapi3.Parameter_Style := "";
     openapi3.Explode := None;
     openapi3.Parameter_Schema := Some (Some (openapi3.mkSchema type None VNil VNil));
     openapi3.Parameter_Example := VNil |}.

(** An operation without request body, with the extensions and parameters
    given. *)
Definition plainOperation (ext : gmap string Value)
    (params : list (option openapi3.ParameterDecl)) : openapi3.Operation :=
  {| openapi3.Operation_Extensions := ext;
     openapi3.OperationID := "get widget";
     openapi3.Summary := "";
     openapi3.Operation_Parameters := params;
     openapi3.Operation_RequestBody := None |}.

(** A document with the servers given and the one path [/widgets], whose
    item has the extensions [pathExt] and the one operation [GET], with
    the extensions [opExt]. *)
Definition widgetsDocument (servers : list string)
    (pathExt opExt : gmap string Value) : openapi3.Swagger :=
  {| openapi3.Swagger_Info := None;
     openapi3.Servers := map (fun u => {| openapi3.Server_URL := u |}) servers;
     openapi3.Paths :=
       {[ "/widgets" :=
            {| openapi3.PathItem_Extensions := pathExt;
               openapi3.PathItem_Parameters := [];
               openapi3.PathItem_Operations :=
                 {[ "GET" := plainOperation opExt [] ]} |} ]} |}.

(** The entrypoint of the examples. *)
Definition entrypoint : Example.simpleURL :=
  {| Example.Scheme := "https"; Example.Host := "api.example.com";
     Example.Path := "" |}.

(** The operation [GET /widgets] compiles to, at the URI given. *)
Definition getWidget (uri : string) (ps : list Param) : Operation :=
  {| Name := "get-widget"; Short := ""; Method := "GET"; URITemplate := uri;
     PathParams := ps; QueryParams := []; HeaderParams := [];
     BodyMediaType := ""; Hidden := false |}.

(** The path item and the operation that both declare the path parameter
    [id]. *)
Definition pathItemWithId : openapi3.PathItem :=
  {| openapi3.PathItem_Extensions := ∅;
     openapi3.PathItem_Parameters := [Some (idParameter "string")];
     openapi3.PathItem_Operations := ∅ |}.

Definition idParam (type : string) : Param :=
  {| Param_Type := type; Param_Name := "id"; Param_DisplayName := "";
     Param_Description := ""; Param_Style := StyleSimple;
     Param_Explode := false; Param_Default := VNil; Param_Example := VNil |}.

(** An array parameter without explicit default, in the simple style. *)
Definition tagsParam (name : string) : Param :=
  {| Param_Type := "array[string]"; Param_Name := name; Param_DisplayName := "";
     Param_Description := ""; Param_Style := StyleSimple;
     Param_Explode := false; Param_Default := VNil; Param_Example := VNil |}.

(** [GET /users/{id}] with an integer [id]. *)
Definition getUser : Operation :=
  {| Name := "get-user"; Short := ""; Method := "GET";
     URITemplate := "https://api.example.com/users/{id}";
     PathParams := [idParam "integer"]; QueryParams := []; HeaderParams := [];
     BodyMediaType := ""; Hidden := false |}.

(** [GET /widgets] with the array parameter [tags] in the query and the
    array parameter [x-tags] in the headers. *)
Definition listWidgets : Operation :=
  {| Name := "list-widgets"; Short := ""; Method := "GET";
     URITemplate := "https://api.example.com/widgets";
     PathParams := []; QueryParams := [tagsParam "tags"];
     HeaderParams := [tagsParam "x-tags"];
     BodyMediaType := ""; Hidden := false |}.

(** An empty, non-nil [[]string]: a slice flag nobody set. *)
Definition noStrings : Value := VSlice TString (Some []).

(** The position of [key] in [keys] (their number when it is missing). *)
Fixpoint position (key : string) (keys : list string) : nat :=
  match keys with
  | [] => 0
  | k :: rest => if String.eqb k key then 0 else Datatypes.S (position key rest)
  end.

(** The run in which every [range] visits the keys in the order [keys]. *)
Definition visiting (keys : list string) : MapRange :=
  {| visit := fun _ key => position key keys |}.

(** ** Further notions *)

(** The links [HALParser] stores for a decoded body: one per relation but
    [curies], in the order the relations are visited. *)
Definition halFound (entries : list (string * halLink)) : list Link :=
  flat_map (fun entry =>
      if String.eqb entry.1 "curies" then []
      else [{| Rel := entry.1; URI := Href entry.2 |}]) entries.

(** The links [SirenParser] stores for a decoded body: for each link with
    an href, one per relation it lists. *)
Definition sirenFound (links : list sirenLink) : list Link :=
  flat_map (fun link =>
      if String.eqb (sirenLink_Href link) "" then []
      else map (fun rel => {| Rel := rel; URI := sirenLink_Href link |})
               (sirenLink_Rel link)) links.

(** What the resolution loop of [ParseLinks] may have done to a link: its
    relation is kept, and its URI is kept or replaced by the text of its
    resolution against [base]. *)
Definition keptOrResolved `{NetURL} (base : URL) (l l' : Link) : Prop :=
  Rel l' = Rel l
  /\ (URI l' = URI l
      \/ exists p, url_Parse (URI l) = Ok p
                   /\ URI l' = url_String (ResolveReference base p)).

(** The schema of [p] is an array schema without an items schema. *)
Definition arrayWithoutItems (p : openapi3.ParameterDecl) : Prop :=
  exists schema,
    openapi3.Parameter_Schema p = Some (Some schema)
    /\ openapi3.Schema_Type schema = "array"
    /\ (openapi3.Schema_Items schema = None
        \/ openapi3.Schema_Items schema = Some None).

(** The dynamic type of an interface value; the nil interface has none. *)
Definition typeOf (v : Value) : option GoType :=
  match v with
  | VNil => None
  | VBool _ => Some TBool
  | VInt _ => Some TInt
  | VFloat _ => Some TFloat64
  | VString _ => Some TString
  | VSlice t _ => Some (TSlice t)
  | VMap k t _ => Some (TMap k t)
  | VPtr t _ => Some (TPtr t)
  end.

Section Contributions.
Context `{ParamMethods}.

(** The strings the query loop adds for [param]: those [Serialize] returns
    for the bound value, unless the parameter is skipped. *)
Definition queryValues (flags : gmap string Value) (param : Param) : list string :=
  match flags !! Param_Name param with
  | Some v =>
      match querySkips param v with
      | Ret false => Serialize param v
      | _ => []
      end
  | None => []
  end.

(** The strings the header loop adds for [param]. *)
Definition headerValues (flags : gmap string Value) (param : Param) : list string :=
  match flags !! Param_Name param with
  | Some v =>
      match headerSkips param v with
      | Ret false => Serialize param v
      | _ => []
      end
  | None => []
  end.
End Contributions.

(** ** [makeJSONSafe] *)

Section JSONSafe.
Context `{MapRange} `{Fmt}.

(** [tmpData] of [makeJSONSafe]: the entries of a map, already converted,
    stored under the text of their keys; a later entry replaces an earlier
    one with the same text. *)
Definition stringKeyed (converted : list (Value * Value)) : gmap string Value :=
  fold_left (fun tmpData kv => <[keyText kv.1 := kv.2]> tmpData) converted ∅.

(** A [map[string]interface{}] holding [tmpData], its entries in the order
    a later [MapKeys] returns them. *)
Definition mapOfStrings (tmpData : gmap string Value) : Value :=
  VMap TString TInterface
       (Some (map (fun entry => (VString entry.1, entry.2)) (rangeMap 10 tmpData))).

(** [makeJSONSafe] walks an interface to ensure all maps use string keys:
    a slice becomes a [[]interface{}] of the converted elements, a map a
    [map[string]interface{}] of the converted values, and any other value,
    a pointer included, is returned as it is. *)
Fixpoint makeJSONSafe (obj : Value) : Value :=
  match obj with
  | VSlice _ None => VSlice TInterface (Some [])
  | VSlice _ (Some xs) => VSlice TInterface (Some (map makeJSONSafe xs))
  | VMap _ _ None => mapOfStrings ∅
  | VMap _ _ (Some kvs) =>
      mapOfStrings
        (stringKeyed (map (fun kv => (kv.1, makeJSONSafe kv.2)) kvs))
  | _ => obj
  end.
End JSONSafe.


(** ** [loader.Load] and the command line *)

(** [loader.Load], from the decoded document on: the loader resolves
    against the entrypoint and hands the description's own location to
    [loadOpenAPI3]. *)
Definition loader_Load `{MapRange} `{NetURL} `{Slug} (entrypoint spec : URL)
    (swagger : openapi3.Swagger) : Run (Result API) :=
  @loadOpenAPI3 _ _ _ {| Resolve := loader_Resolve entrypoint |} spec swagger.

(** The names [Run] never takes for an API. *)
Definition genericCommands : list string :=
  ["help"; "head"; "options"; "get"; "post"; "put"; "patch"; "delete"].

(** The first part of [Run]: the API whose commands are loaded before the
    command line is executed, with its base URI.  [osArgs] is [os.Args],
    [configs] maps each registered API to its base URI, and [commands]
    lists the [Use] of the root's commands. *)
Definition apiToLoad (osArgs : list string) (configs : gmap string string)
    (commands : list string) : option (string * string) :=
  let args := List.filter (fun arg => negb (HasPrefix arg "-")) osArgs in
  match args with
  | _ :: first :: rest =>
      let apiName :=
        match rest with
        | second :: _ => if String.eqb first "help" then second else first
        | [] => first
        end in
      if existsb (String.eqb apiName) genericCommands then None
      else
        match configs !! apiName with
        | Some base =>
            if existsb (fun use => String.eqb use apiName) commands
            then Some (apiName, base) else None
        | None => None
        end
  | _ => None
  end.

(** ** Further inputs of the examples *)

(** A HAL body with a [curies] relation beside a [next] link. *)
Definition halWithCuries : Value :=
  object [("_links",
           object [("curies", object [("href", VString "/docs/{rel}")]);
                   ("next", object [("href", VString "/page/2")])])].

(** A response with the body given and an empty, non-nil links map. *)
Definition initialised (body : Value) : Response :=
  {| Headers := ∅; Links_ := Some ∅; Body := body |}.

(** A response whose one [self] link does not parse as a URI. *)
Definition badSelf : Response :=
  {| Headers := ∅; Links_ := None; Body := object [("self", VString ":bad")] |}.

(** A parameter [limit] whose declared default is the JSON number 10. *)
Definition limitParam : Param :=
  {| Param_Type := "integer"; Param_Name := "limit"; Param_DisplayName := "";
     Param_Description := ""; Param_Style := StyleSimple;
     Param_Explode := false; Param_Default := VFloat 10%float;
     Param_Example := VNil |}.

(** A parameter [tags] whose declared default is an empty [[]string]. *)
Definition tagsWithDefault : Param :=
  {| Param_Type := "array[string]"; Param_Name := "tags"; Param_DisplayName := "";
     Param_Description := ""; Param_Style := StyleSimple;
     Param_Explode := false; Param_Default := VSlice TString (Some []);
     Param_Example := VNil |}.

(** [GET /widgets] with the query parameters given. *)
Definition queryWidgets (params : list Param) : Operation :=
  {| Name := "list-widgets"; Short := ""; Method := "GET";
     URITemplate := "https://api.example.com/widgets";
     PathParams := []; QueryParams := params; HeaderParams := [];
     BodyMediaType := ""; Hidden := false |}.

(** The flags of [listWidgets] with two tags bound to each. *)
Definition twoTags : gmap string Value :=
  {[ "tags" := VSlice TString (Some [VString "a"; VString "b"]);
     "x-tags" := VSlice TString (Some [VString "a"; VString "b"]) ]}.

(** The location of a description served beside the API. *)
Definition descriptionURL : Example.simpleURL :=
  {| Example.Scheme := "https"; Example.Host := "docs.example.com";
     Example.Path := "/openapi.json" |}.

(** ** The order of the parsers and of the resolution *)


(** [l'] is [l] with its URI, which parses, replaced by the text of its
    resolution against [base]. *)
Definition resolvedTo `{NetURL} (base : URL) (l l' : Link) : Prop :=
  Rel l' = Rel l
  /\ exists p, url_Parse (URI l) = Ok p
               /\ URI l' = url_String (ResolveReference base p).

(** A path item the loader does not skip. *)
Definition keptPath (entry : string * openapi3.PathItem) : bool :=
  negb (extBool (openapi3.PathItem_Extensions entry.2) ExtIgnore false).


(** A HAL body whose [_links] hold a [self] and a [next] relation. *)
Definition halSelfPage : Value :=
  object [("_links",
           object [("self", object [("href", VString "/widgets")]);
                   ("next", object [("href", VString "/widgets/9")])])].

(** A body with a [self] entry inside the value of a [self] entry. *)
Definition selfInsideSelf : Value :=
  object [("self", object [("self", VString "/inner")])].

(** * Properties *)

(** ** Loops and values *)

Lemma forRange_app {A S : Type} (body : S -> A -> Run S) (xs ys : list A) (s : S) :
  forRange body (xs ++ ys) s =
  match forRange body xs s with
  | Ret s' => forRange body ys s'
  | Panic msg => Panic msg
  end.
Proof.
  revert s. induction xs as [|x xs IH]; intros s; simpl; [done|].
  destruct (body s x); [apply IH | done].
Qed.

(** A loop whose body returns on every element is a fold. *)
Lemma forRange_fold {A S : Type} (body : S -> A -> Run S) (step : S -> A -> S)
    (xs : list A) (s : S) :
  Forall (fun x => forall s', body s' x = Ret (step s' x)) xs ->
  forRange body xs s = Ret (fold_left step xs s).
Proof.
  intros Hall. revert s. induction Hall as [|x xs Hx _ IH]; intros s; simpl; [done|].
  rewrite Hx. apply IH.
Qed.



(** ** The links map *)

Lemma fileLinks_app (links : option Links) (xs ys : list Link) :
  fileLinks links (xs ++ ys) = fileLinks (fileLinks links xs) ys.
Proof. unfold fileLinks. apply fold_left_app. Qed.

Lemma linksAt_fileLinks (links : option Links) (found : list Link) (rel : string) :
  linksAt (fileLinks links found) rel =
  linksAt links rel ++ filter (fun l => Rel l = rel) found.
Proof.
  revert links. induction found as [|l found IH]; intros links.
  - simpl. by rewrite app_nil_r.
  - change (fileLinks links (l :: found))
      with (fileLinks (fileLinks links [l]) found).
    rewrite IH. rewrite filter_cons. simpl.
    assert (Hm : forall r, linksAt links r = default [] (default ∅ links !! r)).
    { intros r. destruct links; [done|]. simpl. by rewrite lookup_empty. }
    rewrite Hm. destruct (decide (Rel l = rel)) as [->|Hne].
    + rewrite lookup_insert_eq. simpl. by rewrite <- app_assoc.
    + by rewrite lookup_insert_ne.
Qed.

Lemma forRange_fileLinks {A : Type} (body : option Links -> A -> Run (option Links))
    (found : A -> list Link) (xs : list A) (links : option Links) :
  Forall (fun x => forall acc, body acc x = Ret (fileLinks acc (found x))) xs ->
  forRange body xs links = Ret (fileLinks links (flat_map found xs)).
Proof.
  intros Hall. revert links.
  induction Hall as [|x xs Hx _ IH]; intros links; simpl; [done|].
  rewrite Hx, IH. by rewrite fileLinks_app.
Qed.

Lemma appendLink_makeLinks (links : option Links) (l : Link) :
  appendLink (makeLinks links) (Rel l) l = Ret (fileLinks links [l]).
Proof. by destruct links. Qed.

Section Walk.
Context `{Fmt}.




End Walk.

(** ** Ranging over a map *)

Section RangeMap.
Context `{MapRange} {V : Type}.

Lemma rangeMap_Permutation (site : nat) (m : gmap string V) :
  rangeMap site m ≡ₚ map_to_list m.
Proof. unfold rangeMap. apply merge_sort_Permutation. Qed.

Lemma elem_of_rangeMap (site : nat) (m : gmap string V) (k : string) (v : V) :
  (k, v) ∈ rangeMap site m <-> m !! k = Some v.
Proof. rewrite (rangeMap_Permutation site m). apply elem_of_map_to_list. Qed.

Lemma NoDup_rangeMap_keys (site : nat) (m : gmap string V) :
  NoDup (rangeMap site m).*1.
Proof. rewrite (rangeMap_Permutation site m). apply NoDup_fst_map_to_list. Qed.


Lemma list_to_map_rangeMap (site : nat) (m : gmap string V) :
  list_to_map (rangeMap site m) = m.
Proof.
  rewrite <- (list_to_map_to_list m) at 2.
  apply list_to_map_proper; [apply NoDup_rangeMap_keys | apply rangeMap_Permutation].
Qed.
End RangeMap.

(** ** [HALParser] and [SirenParser] on a nil [Links] map *)


Lemma hal_loop_nil_panics (entries : list (string * halLink)) :
  Exists (fun entry => halRecordable entry.1 = true) entries ->
  forRange (fun acc entry =>
      let '(rel, link) := entry in
      if String.eqb rel "curies" then Ret acc
      else appendLink acc rel {| Rel := rel; URI := Href link |})
    entries None = Panic "assignment to entry in nil map".
Proof.
  induction entries as [|[rel link] rest IH]; intros Hex; [by inversion Hex|].
  simpl. destruct (String.eqb rel "curies") eqn:Hrel; [|done].
  apply IH. inversion Hex as [? ? Hhead|]; subst; [|done].
  unfold halRecordable in Hhead. simpl in Hhead. by rewrite Hrel in Hhead.
Qed.

Lemma siren_loop_nil_panics (links : list sirenLink) :
  Exists (fun link => sirenRecordable link = true) links ->
  forRange (fun acc link =>
      if String.eqb (sirenLink_Href link) "" then Ret acc
      else forRange (fun acc' rel =>
             appendLink acc' rel {| Rel := rel; URI := sirenLink_Href link |})
           (sirenLink_Rel link) acc)
    links None = Panic "assignment to entry in nil map".
Proof.
  induction links as [|link rest IH]; intros Hex; [by inversion Hex|].
  simpl. destruct (String.eqb (sirenLink_Href link) "") eqn:Hhref.
  - apply IH. inversion Hex as [? ? Hhead|]; subst; [|done].
    unfold sirenRecordable in Hhead. by rewrite Hhref in Hhead.
  - destruct (sirenLink_Rel link) as [|rel rels] eqn:Hrels; [|done].
    simpl. apply IH. inversion Hex as [? ? Hhead|]; subst; [|done].
    unfold sirenRecordable in Hhead. rewrite Hrels in Hhead.
    by rewrite andb_false_r in Hhead.
Qed.

Section NilLinks.
Context `{MapRange} `{Mapstructure}.

(** [HALParser.ParseLinks] panics on a response whose [Links] map is nil
    as soon as the body decodes to a relation other than [curies]. *)
Lemma HALParser_nil_Links_panics (resp : Response) (hal : halBody) (rel : string) :
  Links_ resp = None ->
  DecodeHAL (Body resp) = Some hal ->
  is_Some (halBody_Links hal !! rel) -> halRecordable rel = true ->
  HALParser_ParseLinks resp = Panic "assignment to entry in nil map".
Proof.
  intros Hnil Hdec [link Hlink] Hrec. unfold HALParser_ParseLinks.
  rewrite Hdec, Hnil. rewrite hal_loop_nil_panics; [done|].
  apply Exists_exists. exists (rel, link). split; [|done].
  by apply elem_of_rangeMap.
Qed.

(** [SirenParser.ParseLinks] panics on a response whose [Links] map is nil
    as soon as the body decodes to a link with an href and a relation. *)
Lemma SirenParser_nil_Links_panics (resp : Response) (siren : sirenBody) (link : sirenLink) :
  Links_ resp = None ->
  DecodeSiren (Body resp) = Some siren ->
  link ∈ sirenBody_Links siren -> sirenRecordable link = true ->
  SirenParser_ParseLinks resp = Panic "assignment to entry in nil map".
Proof.
  intros Hnil Hdec Hin Hrec. unfold SirenParser_ParseLinks.
  rewrite Hdec, Hnil. rewrite siren_loop_nil_panics; [done|].
  apply Exists_exists. by exists link.
Qed.
End NilLinks.

(** C10, at the failing input: on a response whose [Links] map is nil, the
    HAL parser panics on a body with one [next] link, and the Siren parser
    panics on a body with one link that has an href and a relation; the
    generic walk, which creates the map first, stores its link. *)
Lemma HAL_and_Siren_panic_on_nil_Links :
  @HALParser_ParseLinks Example.inOrder Example.mapstructure
    {| Headers := ∅; Links_ := None; Body := halPage |}
  = Panic "assignment to entry in nil map"
  /\ @SirenParser_ParseLinks Example.mapstructure
       {| Headers := ∅; Links_ := None; Body := sirenPage |}
     = Panic "assignment to entry in nil map"
  /\ @TerrificallySimpleJSONParser_ParseLinks Example.fmt
       {| Headers := ∅; Links_ := None;
          Body := object [("self", VString "/page/1")] |}
     = Ret ({| Headers := ∅;
               Links_ := Some {[ "self" := [{| Rel := "self"; URI := "/page/1" |}] ]};
               Body := object [("self", VString "/page/1")] |}, None).
Proof. repeat split; vm_compute; reflexivity. Qed.

(** ** C6: the generic self-link walk *)




(** The value of a [self] entry is not entered: the [self] entry inside
    it is not recorded, and the whole value is printed as the URI. *)
Lemma self_inside_self_is_not_recorded :
  @walk Example.fmt None "self" selfInsideSelf
  = Ret (Some {[ "self" := [{| Rel := "self"; URI := "map[self:/inner]" |}] ]}).
Proof. vm_compute. reflexivity. Qed.

(** ** C7 and C9: [ParseLinks] *)

Section ParseLinks.
Context `{MapRange} `{NetURL} `{Fmt} `{Mapstructure} `{HTTPLink}.


Lemma resolved_parsed (base : URL) (l : Link) (p : URL) :
  url_Parse (URI l) = Ok p ->
  resolved base l = {| Rel := Rel l; URI := url_String (ResolveReference base p) |}.
Proof. unfold resolved. by intros ->. Qed.

Lemma resolveLinks_parsed (base : URL) (links : list Link) :
  Forall parses links ->
  resolveLinks base links = (resolved base <$> links, None).
Proof.
  induction 1 as [|l links [p Hp] _ IH]; simpl; [done|].
  rewrite Hp, IH. by rewrite (resolved_parsed base l p Hp).
Qed.

Lemma resolveEntries_parsed (base : URL) (entries : list (string * list Link))
    (m : Links) :
  Forall (fun entry => Forall parses entry.2) entries ->
  resolveEntries base entries m =
  (fold_left (fun acc entry => <[entry.1 := resolved base <$> entry.2]> acc)
             entries m, None).
Proof.
  intros Hall. revert m.
  induction Hall as [|[rel links] entries Hlinks _ IH]; intros m; simpl; [done|].
  rewrite resolveLinks_parsed by done. apply IH.
Qed.

Lemma lookup_fold_insert_entries {A B : Type} (f : A -> B)
    (entries : list (string * A)) (m : gmap string B) (k : string) :
  NoDup entries.*1 ->
  fold_left (fun acc entry => <[entry.1 := f entry.2]> acc) entries m !! k =
  match (list_to_map entries : gmap string A) !! k with
  | Some a => Some (f a)
  | None => m !! k
  end.
Proof.
  revert m. induction entries as [|[k' a] entries IH]; intros m Hnd; simpl.
  - by rewrite lookup_empty.
  - apply NoDup_cons in Hnd as [Hnotin Hnd].
    rewrite IH by done. destruct (decide (k' = k)) as [->|Hne].
    + rewrite lookup_insert_eq.
      rewrite (not_elem_of_list_to_map_1 entries k) by done.
      by rewrite lookup_insert_eq.
    + rewrite !(lookup_insert_ne _ k' k) by done. done.
Qed.

(** Once the parsers have run, a links map whose URIs all parse is
    rewritten entry by entry to the resolved links. *)
Lemma resolveEntries_rangeMap (base : URL) (m : Links) :
  (forall rel l, l ∈ linksAt (Some m) rel -> parses l) ->
  exists m',
    resolveEntries base (rangeMap 1 m) m = (m', None)
    /\ forall rel, linksAt (Some m') rel = resolved base <$> linksAt (Some m) rel.
Proof.
  intros Hparse. eexists. split.
  - apply resolveEntries_parsed. apply Forall_forall. intros [rel links] Hin.
    apply elem_of_rangeMap in Hin. apply Forall_forall. intros l Hl.
    apply (Hparse rel). simpl. by rewrite Hin.
  - intros rel. simpl.
    rewrite (lookup_fold_insert_entries (fmap (resolved base)))
      by apply NoDup_rangeMap_keys.
    rewrite list_to_map_rangeMap. by destruct (m !! rel).
Qed.
End ParseLinks.

Section ParseLinksClaims.
Context `{MapRange} `{NetURL} `{Fmt} `{Mapstructure} `{HTTPLink}.




(** A link whose URI parses is rewritten to its resolution. *)
Lemma Forall2_resolvedTo (base : URL) (links : list Link) :
  Forall parses links ->
  Forall2 (resolvedTo base) links (resolved base <$> links).
Proof.
  induction 1 as [|l links [p Hp] _ IH]; simpl; constructor; [|done].
  rewrite (resolved_parsed base l p Hp). split; [done|]. by exists p.
Qed.

(** The inner loop stops at the first URI that does not parse: the links
    before it are resolved, that link and the links after it are left. *)
Lemma resolveLinks_first_bad (base : URL) (pre : list Link) (bad : Link)
    (post : list Link) (e : error) :
  Forall parses pre ->
  url_Parse (URI bad) = Err e ->
  resolveLinks base (pre ++ bad :: post)
  = ((resolved base <$> pre) ++ bad :: post, Some e).
Proof.
  intros Hpre Hbad. induction Hpre as [|l pre [p Hp] _ IH]; simpl.
  - by rewrite Hbad.
  - rewrite Hp, IH. by rewrite (resolved_parsed base l p Hp).
Qed.

(** The outer loop stops with it: the entries visited before are
    resolved, the entries after are not visited. *)
Lemma resolveEntries_first_bad (base : URL)
    (visited : list (string * list Link)) (rel : string) (pre : list Link)
    (bad : Link) (post : list Link) (rest : list (string * list Link))
    (e : error) :
  Forall (fun entry => Forall parses entry.2) visited ->
  Forall parses pre ->
  url_Parse (URI bad) = Err e ->
  forall m,
    resolveEntries base (visited ++ (rel, pre ++ bad :: post) :: rest) m
    = (<[rel := (resolved base <$> pre) ++ bad :: post]>
         (fold_left (fun acc entry => <[entry.1 := resolved base <$> entry.2]> acc)
                    visited m),
       Some e).
Proof.
  intros Hvisited Hpre Hbad.
  induction Hvisited as [|[r links] visited Hlinks _ IH]; intros m; simpl.
  - by rewrite (resolveLinks_first_bad base pre bad post e).
  - rewrite resolveLinks_parsed by done. apply IH.
Qed.

(** C9, amended: when every parser has run without error, [ParseLinks]
    returns without panic and leaves headers and body alone.  It visits
    the relations in the order of the map and the links of a relation in
    their order, and rewrites each link's URI to the text of its
    resolution against the base until it meets a URI that does not parse:
    when every URI parses, every link is rewritten and no error is
    returned; otherwise the parse error of the first such link is
    returned, the links visited before it are rewritten, and that link and
    every link after it, in its relation and in the relations not yet
    visited, are left as the parsers stored them. *)
Theorem ParseLinks_resolves_links_before_first_bad_URI
    (parsers : list LinkParser) (base : URL) (resp resp1 : Response) :
  runParsers parsers resp = Ret (resp1, None) ->
  exists resp2 err,
    ParseLinks parsers base resp = Ret (resp2, err)
    /\ Headers resp2 = Headers resp1 /\ Body resp2 = Body resp1
    /\ ((forall rel l, l ∈ linksAt (Links_ resp1) rel -> parses l) ->
        err = None
        /\ forall rel,
             Forall2 (resolvedTo base)
               (linksAt (Links_ resp1) rel) (linksAt (Links_ resp2) rel))
    /\ (forall m visited rel pre bad post rest e,
          Links_ resp1 = Some m ->
          rangeMap 1 m = visited ++ (rel, pre ++ bad :: post) :: rest ->
          Forall (fun entry => Forall parses entry.2) visited ->
          Forall parses pre ->
          url_Parse (URI bad) = Err e ->
          err = Some e
          /\ (forall r links,
                (r, links) ∈ visited ->
                Forall2 (resolvedTo base) links (linksAt (Links_ resp2) r))
          /\ (exists pre',
                Forall2 (resolvedTo base) pre pre'
                /\ linksAt (Links_ resp2) rel = pre' ++ bad :: post)
          /\ (forall r links,
                (r, links) ∈ rest -> linksAt (Links_ resp2) r = links)).
Proof.
  intros Hrun. unfold ParseLinks. rewrite Hrun.
  destruct (Links_ resp1) as [m|] eqn:Hlinks.
  - destruct (resolveEntries base (rangeMap 1 m) m) as [m' err] eqn:Hres.
    exists (withLinks resp1 (Some m')), err.
    split; [done|]. split; [done|]. split; [done|]. split.
    + intros Hparse.
      destruct (resolveEntries_rangeMap base m Hparse) as (m'' & Heq & Hm'').
      rewrite Hres in Heq. injection Heq as <- ->. split; [done|].
      intros rel. simpl Links_. rewrite Hm''. apply Forall2_resolvedTo.
      apply Forall_forall. intros l Hl. by apply (Hparse rel).
    + intros m0 visited rel pre bad post rest e [= <-] Hsplit Hvisited Hpre Hbad.
      rewrite Hsplit, (resolveEntries_first_bad _ _ _ _ _ _ _ e) in Hres by done.
      injection Hres as <- <-.
      pose proof (NoDup_rangeMap_keys 1 m) as Hnd.
      rewrite Hsplit, fmap_app, fmap_cons in Hnd. simpl in Hnd.
      apply NoDup_app in Hnd as (Hnd1 & Hdisj & [Hrel Hnd2]%NoDup_cons).
      split; [done|]. simpl Links_. split; [|split].
      * intros r links Hin.
        assert (r <> rel) as Hne.
        { intros ->. apply (Hdisj rel); [|by left].
          apply list_elem_of_fmap. by exists (rel, links). }
        simpl. rewrite lookup_insert_ne by done.
        rewrite (lookup_fold_insert_entries (fmap (resolved base))) by done.
        rewrite (elem_of_list_to_map_1 _ _ _ Hnd1 Hin). simpl.
        apply Forall2_resolvedTo.
        by apply (proj1 (Forall_forall _ _) Hvisited (r, links)).
      * exists (resolved base <$> pre). split; [by apply Forall2_resolvedTo|].
        simpl. by rewrite lookup_insert_eq.
      * intros r links Hin.
        assert (r <> rel) as Hne.
        { intros ->. apply Hrel. apply list_elem_of_fmap. by exists (rel, links). }
        assert (r ∉ visited.*1) as Hnot.
        { intros Hr. apply (Hdisj r Hr). right.
          apply list_elem_of_fmap. by exists (r, links). }
        simpl. rewrite lookup_insert_ne by done.
        rewrite (lookup_fold_insert_entries (fmap (resolved base))) by done.
        rewrite (not_elem_of_list_to_map_1 _ _ Hnot).
        assert (Hm : m !! r = Some links).
        { apply (elem_of_rangeMap 1). rewrite Hsplit.
          apply elem_of_app. right. by right. }
        by rewrite Hm.
  - exists resp1, None. split; [done|]. split; [done|]. split; [done|]. split.
    + intros _. split; [done|]. intros rel. rewrite Hlinks. constructor.
    + intros m; intros; done.
Qed.
End ParseLinksClaims.



(** C9, counterexample: the HAL parser and the generic walk run without
    error on a HAL body with a [self] and a [next] relation; the walk
    files the [self] object of [_links] under [_links], printed as
    [map[href:/widgets]], which is no URI.  In a run that visits [_links]
    first, [ParseLinks] returns the parse error and the link [/widgets/9]
    stays relative. *)
Lemma link_after_unparsable_URI_stays_relative :
  @ParseLinks (Example.startingAt "_links") Example.url
    [@HALParser (Example.startingAt "_links") Example.mapstructure;
     @TerrificallySimpleJSONParser Example.fmt]
    widgetsURL (initialised halSelfPage)
  = Ret ({| Headers := ∅;
            Links_ := Some {[ "self" := [{| Rel := "self"; URI := "/widgets" |}];
                              "next" := [{| Rel := "next"; URI := "/widgets/9" |}];
                              "_links" := [{| Rel := "_links";
                                              URI := "map[href:/widgets]" |}] ]};
            Body := halSelfPage |},
         Some "first path segment in URL cannot contain colon").
Proof. vm_compute. reflexivity. Qed.

(** Witness of C9: the link [/widgets/9], found in a response fetched at
    [https://api.example.com/widgets], becomes
    [https://api.example.com/widgets/9]. *)
Lemma ParseLinks_resolves_widgets_link :
  @ParseLinks Example.inOrder Example.url
    [@LinkHeaderParser Example.httplink; @TerrificallySimpleJSONParser Example.fmt]
    widgetsURL widgets
  = Ret ({| Headers := ∅;
            Links_ := Some {[ "next" := [{| Rel := "next";
                                            URI := "https://api.example.com/widgets/9" |}] ]};
            Body := Body widgets |}, None)
  /\ exists resp2 err,
       @ParseLinks Example.inOrder Example.url
         [@LinkHeaderParser Example.httplink; @TerrificallySimpleJSONParser Example.fmt]
         widgetsURL widgets = Ret (resp2, err)
       /\ Headers resp2 = ∅ /\ Body resp2 = Body widgets
       /\ ((forall rel l,
              l ∈ linksAt (Some {[ "next" := [{| Rel := "next"; URI := "/widgets/9" |}] ]}) rel ->
              @parses Example.url l) ->
           err = None
           /\ forall rel,
                Forall2 (@resolvedTo Example.url widgetsURL)
                  (linksAt (Some {[ "next" := [{| Rel := "next"; URI := "/widgets/9" |}] ]}) rel)
                  (linksAt (Links_ resp2) rel))
       /\ (forall m visited rel pre bad post rest e,
             Some ({[ "next" := [{| Rel := "next"; URI := "/widgets/9" |}] ]} : Links)
             = Some m ->
             @rangeMap Example.inOrder _ 1 m
             = visited ++ (rel, pre ++ bad :: post) :: rest ->
             Forall (fun entry => Forall (@parses Example.url) entry.2) visited ->
             Forall (@parses Example.url) pre ->
             Example.simpleParse (URI bad) = Err e ->
             err = Some e
             /\ (forall r links,
                   (r, links) ∈ visited ->
                   Forall2 (@resolvedTo Example.url widgetsURL) links
                           (linksAt (Links_ resp2) r))
             /\ (exists pre',
                   Forall2 (@resolvedTo Example.url widgetsURL) pre pre'
                   /\ linksAt (Links_ resp2) rel = pre' ++ bad :: post)
             /\ (forall r links,
                   (r, links) ∈ rest -> linksAt (Links_ resp2) r = links)).
Proof.
  split; [vm_compute; reflexivity|].
  pose proof (@ParseLinks_resolves_links_before_first_bad_URI
                Example.inOrder Example.url
                [@LinkHeaderParser Example.httplink;
                 @TerrificallySimpleJSONParser Example.fmt]
                widgetsURL widgets
                {| Headers := ∅;
                   Links_ := Some {[ "next" := [{| Rel := "next"; URI := "/widgets/9" |}] ]};
                   Body := Body widgets |}) as Hthm.
  exact (Hthm ltac:(vm_compute; reflexivity)).
Defined.

(** ** C2: the request body's media type *)

Lemma find_Contains_Some {A : Type} (part : string) (entries : list (string * A))
    (found : string * A) :
  List.find (fun entry => Contains entry.1 part) entries = Some found ->
  found ∈ entries /\ Contains found.1 part = true.
Proof. intros [Hin Hc]%find_some. split; [by apply list_elem_of_In | done]. Qed.

Lemma find_Contains_None {A : Type} (part : string) (entries : list (string * A)) :
  List.find (fun entry => Contains entry.1 part) entries = None ->
  forall entry, entry ∈ entries -> Contains entry.1 part = false.
Proof.
  intros Hnone entry Hin. apply list_elem_of_In in Hin.
  apply (find_none _ _ Hnone entry Hin).
Qed.

Section MediaType.
Context `{MapRange} `{NetURL} `{Slug}.

Lemma rangeMap_mts_declared (site : nat) (content : gmap string openapi3.MediaType)
    (entry : string * requestInfo) :
  entry ∈ rangeMap site (mediaTypeInfo <$> content) -> entry.1 ∈ dom content.
Proof.
  destruct entry as [mt info]. intros Hin%elem_of_rangeMap.
  apply elem_of_dom. rewrite lookup_fmap in Hin.
  destruct (content !! mt) eqn:Hmt; [by eexists | done].
Qed.

Lemma declared_rangeMap_mts (site : nat) (content : gmap string openapi3.MediaType)
    (mt : string) :
  mt ∈ dom content ->
  exists info, (mt, info) ∈ rangeMap site (mediaTypeInfo <$> content).
Proof.
  intros [item Hitem]%elem_of_dom. exists (mediaTypeInfo item).
  apply elem_of_rangeMap. by rewrite lookup_fmap, Hitem.
Qed.

(** What [getRequestInfo] picks among the declared media types. *)
Lemma getRequestInfo'_pick (content : gmap string openapi3.MediaType) :
  let mt := (getRequestInfo' content).1 in
  ((exists k, k ∈ dom content /\ Contains k "json" = true) ->
   mt ∈ dom content /\ Contains mt "json" = true)
  /\ ((forall k, k ∈ dom content -> Contains k "json" = false) ->
      (exists k, k ∈ dom content /\ Contains k "yaml" = true) ->
      mt ∈ dom content /\ Contains mt "yaml" = true)
  /\ ((forall k, k ∈ dom content -> Contains k "json" = false) ->
      (forall k, k ∈ dom content -> Contains k "yaml" = false) ->
      content <> ∅ -> mt ∈ dom content).
Proof.
  unfold getRequestInfo', firstContaining. simpl.
  destruct (List.find _ (rangeMap 5 _)) as [found|] eqn:Hjson.
  { apply find_Contains_Some in Hjson as [Hin Hc].
    apply rangeMap_mts_declared in Hin as Hdom.
    split; [done|]. split.
    - intros Hno. by rewrite (Hno _ Hdom) in Hc.
    - intros Hno. by rewrite (Hno _ Hdom) in Hc. }
  pose proof (find_Contains_None _ _ Hjson) as Hnojson.
  assert (Hnj : forall k, k ∈ dom content -> Contains k "json" = false).
  { intros k [info Hk]%(declared_rangeMap_mts 5). apply (Hnojson _ Hk). }
  split; [intros (k & Hk & Hkc); by rewrite (Hnj k Hk) in Hkc|].
  destruct (List.find _ (rangeMap 6 _)) as [found|] eqn:Hyaml.
  { apply find_Contains_Some in Hyaml as [Hin Hc].
    apply rangeMap_mts_declared in Hin as Hdom.
    split; [done|].
    intros _ Hno. by rewrite (Hno _ Hdom) in Hc. }
  pose proof (find_Contains_None _ _ Hyaml) as Hnoyaml.
  assert (Hny : forall k, k ∈ dom content -> Contains k "yaml" = false).
  { intros k [info Hk]%(declared_rangeMap_mts 6). apply (Hnoyaml _ Hk). }
  split; [intros _ (k & Hk & Hkc); by rewrite (Hny k Hk) in Hkc|].
  intros _ _ Hne.
  destruct (rangeMap 7 (mediaTypeInfo <$> content)) as [|found rest] eqn:Hrange.
  - exfalso. apply Hne. apply (fmap_empty_inv mediaTypeInfo).
    apply map_to_list_empty_iff, Permutation_nil_r.
    by rewrite <- (rangeMap_Permutation 7), Hrange.
  - apply (rangeMap_mts_declared 7). rewrite Hrange. by left.
Qed.
End MediaType.

Section CompiledOperation.
Context `{MapRange} `{NetURL} `{Slug}.

(** What [openapiOperation] returns when it returns. *)
Lemma openapiOperation_Ret (method : string) (uriTemplate : URL)
    (path : openapi3.PathItem) (op : openapi3.Operation) (compiled : Operation) :
  openapiOperation method uriTemplate path op = Ret compiled ->
  exists params,
    forRange addParam
      (openapi3.PathItem_Parameters path ++ openapi3.Operation_Parameters op)
      {| pathParams := []; queryParams := []; headerParams := [] |} = Ret params
    /\ PathParams compiled = pathParams params
    /\ QueryParams compiled = queryParams params
    /\ HeaderParams compiled = headerParams params
    /\ Method compiled = method
    /\ URITemplate compiled = url_String uriTemplate
    /\ BodyMediaType compiled =
       match openapi3.Operation_RequestBody op with
       | Some (Some _) => (getRequestInfo op).1
       | _ => ""
       end.
Proof.
  unfold openapiOperation. destruct (forRange _ _ _) as [params|] eqn:Hparams; [|done].
  simpl. intros [= <-]. by exists params.
Qed.

(** C2, amended: the compiled [BodyMediaType] is a declared media type
    containing [json] when one is declared; else a declared one containing
    [yaml] when one is declared; else, when any is declared, one of the
    declared media types (the one the map iteration yields first, which is
    not fixed).  For the three media types [application/xml],
    [application/yaml] and [application/json] it is [application/json]. *)
Theorem bodyMediaType_prefers_json_then_yaml (method : string) (uriTemplate : URL)
    (path : openapi3.PathItem) (op : openapi3.Operation)
    (body : openapi3.RequestBody) (compiled : Operation) :
  openapi3.Operation_RequestBody op = Some (Some body) ->
  openapiOperation method uriTemplate path op = Ret compiled ->
  let declared := dom (openapi3.Content body) in
  let mt := BodyMediaType compiled in
  ((exists k, k ∈ declared /\ Contains k "json" = true) ->
   mt ∈ declared /\ Contains mt "json" = true)
  /\ ((forall k, k ∈ declared -> Contains k "json" = false) ->
      (exists k, k ∈ declared /\ Contains k "yaml" = true) ->
      mt ∈ declared /\ Contains mt "yaml" = true)
  /\ ((forall k, k ∈ declared -> Contains k "json" = false) ->
      (forall k, k ∈ declared -> Contains k "yaml" = false) ->
      declared <> ∅ -> mt ∈ declared)
  /\ (declared = {[ "application/xml"; "application/yaml"; "application/json" ]} ->
      mt = "application/json").
Proof.
  intros Hbody (params & _ & _ & _ & _ & _ & _ & Hmt)%openapiOperation_Ret.
  unfold getRequestInfo in Hmt. rewrite Hbody in Hmt. cbv zeta. rewrite Hmt.
  destruct (getRequestInfo'_pick (openapi3.Content body)) as (Hjson & Hyaml & Hany).
  split; [done|]. split; [done|]. split.
  - intros Hnj Hny Hne. apply Hany; try done.
    intros Hempty. apply Hne. by rewrite Hempty, dom_empty_L.
  - intros Hdom. destruct Hjson as [Hin Hc].
    { exists "application/json". rewrite Hdom. split; [set_solver | done]. }
    rewrite Hdom in Hin.
    apply elem_of_union in Hin as [[Hin|Hin]%elem_of_union|Hin];
      apply elem_of_singleton in Hin; rewrite Hin in Hc |- *; done.
Qed.
End CompiledOperation.

(** Witness of C2: a body declaring [application/xml], [application/yaml]
    and [application/json] compiles to [application/json]. *)
Lemma bodyMediaType_xml_yaml_json_witness :
  BodyMediaType
    {| Name := "create-widget"; Short := ""; Method := "POST";
       URITemplate := "https://api.example.com/widgets";
       PathParams := []; QueryParams := []; HeaderParams := [];
       BodyMediaType := "application/json"; Hidden := false |}
  = "application/json"
  /\ @openapiOperation Example.inOrder Example.url Example.slug
       "POST" widgetsURL emptyPathItem
       (operationWithBody ["application/xml"; "application/yaml"; "application/json"])
     = Ret {| Name := "create-widget"; Short := ""; Method := "POST";
              URITemplate := "https://api.example.com/widgets";
              PathParams := []; QueryParams := []; HeaderParams := [];
              BodyMediaType := "application/json"; Hidden := false |}.
Proof.
  split.
  - refine (proj2 (proj2 (proj2
      (@bodyMediaType_prefers_json_then_yaml Example.inOrder Example.url Example.slug
         "POST" widgetsURL emptyPathItem
         (operationWithBody ["application/xml"; "application/yaml"; "application/json"])
         _ _ eq_refl _))) _).
    + vm_compute. reflexivity.
    + simpl. rewrite !dom_insert_L, dom_empty_L. set_solver.
  - vm_compute. reflexivity.
Defined.

(** C2, counterexample: for a body declaring [application/xml] and
    [text/plain], one run compiles [application/xml] and another
    [text/plain]; the code fixes no choice between them. *)
Lemma last_resort_media_type_depends_on_the_run :
  @openapiOperation (Example.startingAt "application/xml") Example.url Example.slug
    "POST" widgetsURL emptyPathItem
    (operationWithBody ["application/xml"; "text/plain"])
  = Ret {| Name := "create-widget"; Short := ""; Method := "POST";
           URITemplate := "https://api.example.com/widgets";
           PathParams := []; QueryParams := []; HeaderParams := [];
           BodyMediaType := "application/xml"; Hidden := false |}
  /\ @openapiOperation (Example.startingAt "text/plain") Example.url Example.slug
       "POST" widgetsURL emptyPathItem
       (operationWithBody ["application/xml"; "text/plain"])
     = Ret {| Name := "create-widget"; Short := ""; Method := "POST";
              URITemplate := "https://api.example.com/widgets";
              PathParams := []; QueryParams := []; HeaderParams := [];
              BodyMediaType := "text/plain"; Hidden := false |}.
Proof. split; vm_compute; reflexivity. Qed.

(** ** C3: ignored paths and operations *)

(** C3, at the failing input: a document whose only operation carries
    [x-cli-ignore: true] still compiles that operation, while the same
    flag on the path item empties the API. *)
Lemma ignored_operation_is_compiled :
  @loadOpenAPI3 Example.inOrder Example.url Example.slug
    (Example.resolver entrypoint) entrypoint
    (widgetsDocument [] ∅ {[ ExtIgnore := VBool true ]})
  = Ret (Ok {| API_Short := ""; API_Long := "";
               Operations := [getWidget "https://api.example.com/widgets" []] |})
  /\ @loadOpenAPI3 Example.inOrder Example.url Example.slug
       (Example.resolver entrypoint) entrypoint
       (widgetsDocument [] {[ ExtIgnore := VBool true ]} ∅)
     = Ret (Ok {| API_Short := ""; API_Long := ""; Operations := [] |}).
Proof. split; vm_compute; reflexivity. Qed.

Section CompiledPaths.
Context `{MapRange} `{NetURL} `{Slug} `{!Resolver}.

(** Every operation [compileOperations] adds is compiled from an operation
    of the path item, at the resolved URI. *)
Lemma compileOperations_from (resolved : URL) (path : openapi3.PathItem)
    (entries : list (string * openapi3.Operation)) :
  forall ignore operations operations',
    compileOperations resolved path entries ignore operations = Ret operations' ->
    forall op, op ∈ operations' ->
      op ∈ operations
      \/ exists method operation,
           (method, operation) ∈ entries
           /\ openapiOperation method resolved path operation = Ret op.
Proof.
  induction entries as [|[method operation] entries IH];
    intros ignore operations operations' Hrun op Hop; simpl in Hrun.
  - injection Hrun as <-. by left.
  - destruct (extBool _ _ _).
    + destruct (IH _ _ _ Hrun op Hop) as [?|(m & o & Hin & Ho)]; [by left|].
      right. exists m, o. split; [by right | done].
    + destruct (openapiOperation method resolved path operation) as [compiled|] eqn:Hc;
        [|done]. simpl in Hrun.
      destruct (IH _ _ _ Hrun op Hop) as [Hin|(m & o & Hin & Ho)].
      * apply elem_of_app in Hin as [?|Hnew%list_elem_of_singleton]; [by left|].
        subst op. right. exists method, operation. split; [by left | done].
      * right. exists m, o. split; [by right | done].
Qed.

(** Every operation [compilePaths] adds comes from a path item that is not
    flagged ignored, and its URI template is the resolution of the base
    path followed by the item's path. *)
Lemma compilePaths_from (basePath : string)
    (entries : list (string * openapi3.PathItem)) :
  forall operations operations',
    compilePaths basePath entries operations = Ret (Ok operations') ->
    forall op, op ∈ operations' ->
      op ∈ operations
      \/ exists uri path resolved method operation,
           (uri, path) ∈ entries
           /\ extBool (openapi3.PathItem_Extensions path) ExtIgnore false = false
           /\ Resolve (basePath +:+ uri) = Ok resolved
           /\ openapi3.PathItem_Operations path !! method = Some operation
           /\ openapiOperation method resolved path operation = Ret op.
Proof.
  induction entries as [|[uri path] entries IH];
    intros operations operations' Hrun op Hop; simpl in Hrun.
  - injection Hrun as <-. by left.
  - destruct (extBool _ _ _) eqn:Hignore.
    + destruct (IH _ _ Hrun op Hop) as [?|(u & p & r & m & o & Hin & Hrest)];
        [by left|].
      right. exists u, p, r, m, o. split; [by right | done].
    + destruct (Resolve (basePath +:+ uri)) as [resolved|] eqn:Hres; [|done].
      destruct (compileOperations _ _ _ _ _) as [added|] eqn:Hadd; [|done].
      simpl in Hrun.
      destruct (IH _ _ Hrun op Hop) as [Hin|(u & p & r & m & o & Hin & Hrest)].
      * destruct (compileOperations_from _ _ _ _ _ _ Hadd op Hin)
          as [?|(m & o & Hmo & Ho)]; [by left|].
        right. exists uri, path, resolved, m, o.
        apply elem_of_rangeMap in Hmo. split; [by left | done].
      * right. exists u, p, r, m, o. split; [by right | done].
Qed.
End CompiledPaths.

(** ** C4: the base path *)

Section BasePath.
Context `{MapRange} `{NetURL} `{Slug} `{!Resolver}.

Lemma findBasePath_last (prefix : string) (servers : list openapi3.Server) :
  forall basePath0 basePath,
    findBasePath prefix servers basePath0 = Ok basePath ->
    match last (List.filter (fun s => HasPrefix (openapi3.Server_URL s) prefix)
                            servers) with
    | Some s => exists base, url_Parse (openapi3.Server_URL s) = Ok base
                             /\ basePath = url_Path base
    | None => basePath = basePath0
    end.
Proof.
  induction servers as [|s servers IH]; intros basePath0 basePath Hfind;
    simpl in *.
  - by injection Hfind as <-.
  - destruct (HasPrefix (openapi3.Server_URL s) prefix).
    + destruct (url_Parse (openapi3.Server_URL s)) as [base|] eqn:Hparse; [|done].
      apply IH in Hfind. rewrite last_cons.
      destruct (last _); [done|]. by exists base.
    + by apply IH.
Qed.

(** C4, amended: the base path is the path component of the last declared
    server whose URL begins with the scheme, [://] and host of the
    document's location (empty when no server does), and the URI template
    of every compiled operation is the resolver's result for that base
    path followed by the operation's path. *)
Theorem basePath_is_last_matching_server (location : URL)
    (swagger : openapi3.Swagger) (api : API) :
  loadOpenAPI3 location swagger = Ret (Ok api) ->
  let prefix := url_Scheme location +:+ "://" +:+ url_Host location in
  let matching :=
    List.filter (fun s => HasPrefix (openapi3.Server_URL s) prefix)
                (openapi3.Servers swagger) in
  exists basePath,
    match last matching with
    | Some s => exists base, url_Parse (openapi3.Server_URL s) = Ok base
                             /\ basePath = url_Path base
    | None => basePath = ""
    end
    /\ forall op, op ∈ Operations api ->
         exists uri path resolved,
           openapi3.Paths swagger !! uri = Some path
           /\ Resolve (basePath +:+ uri) = Ok resolved
           /\ URITemplate op = url_String resolved.
Proof.
  unfold loadOpenAPI3. intros Hload. cbv zeta.
  destruct (findBasePath _ _ _) as [basePath|] eqn:Hbase; [|done].
  destruct (compilePaths _ _ _) as [[operations|]|] eqn:Hpaths; try done.
  simpl in Hload. destruct (openapi3.Swagger_Info swagger);
    injection Hload as <-; simpl.
  all: exists basePath; split; [by apply findBasePath_last in Hbase|].
  all: intros op Hop;
    destruct (compilePaths_from _ _ _ _ Hpaths op Hop)
      as [?%elem_of_nil|(uri & path & resolved & m & o & Hin & _ & Hres & _ & Hc)];
    [done|];
    apply elem_of_rangeMap in Hin;
    apply openapiOperation_Ret in Hc as (_ & _ & _ & _ & _ & _ & Huri & _);
    by exists uri, path, resolved.
Qed.
End BasePath.

(** C4, counterexample: with two declared servers on the entrypoint's host,
    [/v1] first and [/v2] second, the operation is compiled under [/v2],
    the path of the second. *)
Lemma second_matching_server_wins :
  @loadOpenAPI3 Example.inOrder Example.url Example.slug
    (Example.resolver entrypoint) entrypoint
    (widgetsDocument ["https://api.example.com/v1"; "https://api.example.com/v2"] ∅ ∅)
  = Ret (Ok {| API_Short := ""; API_Long := "";
               Operations := [getWidget "https://api.example.com/v2/widgets" []] |}).
Proof. vm_compute. reflexivity. Qed.

(** Witness of C4: of three servers, the first on another host, the base
    path is that of the third. *)
Lemma basePath_is_last_matching_server_witness :
  exists basePath,
    (exists base,
        Example.simpleParse "https://api.example.com/v2" = Ok base
        /\ basePath = Example.Path base)
    /\ forall op,
         op ∈ [getWidget "https://api.example.com/v2/widgets" []] ->
         exists uri path resolved,
           openapi3.Paths
             (widgetsDocument
                ["https://other.example.com/v0"; "https://api.example.com/v1";
                 "https://api.example.com/v2"] ∅ ∅) !! uri = Some path
           /\ @loader_Resolve Example.url entrypoint (basePath +:+ uri) = Ok resolved
           /\ URITemplate op = Example.simpleString resolved.
Proof.
  apply (@basePath_is_last_matching_server Example.inOrder Example.url Example.slug
           (Example.resolver entrypoint) entrypoint
           (widgetsDocument
              ["https://other.example.com/v0"; "https://api.example.com/v1";
               "https://api.example.com/v2"] ∅ ∅)
           {| API_Short := ""; API_Long := "";
              Operations := [getWidget "https://api.example.com/v2/widgets" []] |}).
  vm_compute. reflexivity.
Defined.

(** ** C5: path-level and operation-level parameters *)

Section Parameters.
Context `{MapRange} `{NetURL} `{Slug}.

Lemma declaredIn_cons (location : string) (d : openapi3.ParameterDecl)
    (decls : list (option openapi3.ParameterDecl)) :
  declaredIn location (Some d :: decls) =
  if String.eqb (openapi3.Parameter_In d) location
  then d :: declaredIn location decls else declaredIn location decls.
Proof. reflexivity. Qed.

Lemma addParam_loop (decls : list (option openapi3.ParameterDecl)) :
  forall acc acc',
    forRange addParam decls acc = Ret acc' ->
    exists ps qs hs,
      pathParams acc' = pathParams acc ++ ps
      /\ queryParams acc' = queryParams acc ++ qs
      /\ headerParams acc' = headerParams acc ++ hs
      /\ Forall2 (fun d p => compileParam d = Ret p) (declaredIn "path" decls) ps
      /\ Forall2 (fun d p => compileParam d = Ret p) (declaredIn "query" decls) qs
      /\ Forall2 (fun d p => compileParam d = Ret p) (declaredIn "header" decls) hs.
Proof.
  induction decls as [|[d|] decls IH]; intros acc acc' Hrun; simpl in Hrun.
  - injection Hrun as <-. exists [], [], []. rewrite !app_nil_r.
    repeat split; constructor.
  - destruct (compileParam d) as [param|] eqn:Hd; [|done]. simpl in Hrun.
    rewrite !declaredIn_cons.
    destruct (String.eqb (openapi3.Parameter_In d) "path") eqn:Hpath;
      [|destruct (String.eqb (openapi3.Parameter_In d) "query") eqn:Hquery;
        [|destruct (String.eqb (openapi3.Parameter_In d) "header") eqn:Hheader]].
    + apply String.eqb_eq in Hpath as Hloc.
      destruct (IH _ _ Hrun) as (ps & qs & hs & Hp & Hq & Hh & Fp & Fq & Fh).
      simpl in Hp, Hq, Hh. exists (param :: ps), qs, hs.
      rewrite Hloc, Hp, <- app_assoc. simpl.
      repeat split; try done. by constructor.
    + clear Hpath. apply String.eqb_eq in Hquery as Hloc.
      destruct (IH _ _ Hrun) as (ps & qs & hs & Hp & Hq & Hh & Fp & Fq & Fh).
      simpl in Hp, Hq, Hh. exists ps, (param :: qs), hs.
      rewrite Hloc, Hq, <- app_assoc. simpl.
      repeat split; try done. by constructor.
    + clear Hpath Hquery. apply String.eqb_eq in Hheader as Hloc.
      destruct (IH _ _ Hrun) as (ps & qs & hs & Hp & Hq & Hh & Fp & Fq & Fh).
      simpl in Hp, Hq, Hh. exists ps, qs, (param :: hs).
      rewrite Hh, <- app_assoc.
      repeat split; try done. by constructor.
    + by apply IH.
  - by apply IH.
Qed.

(** C5, amended: the compiled operation holds one [Param] for every
    declared parameter whose location is [path], [query] or [header], in
    the list of that location, the path-level declarations first and the
    operation-level declarations after them, each in declaration order;
    nothing is merged or replaced.  The three lists hold nothing else: an
    entry without value is skipped, and a parameter declared in another
    location, such as [cookie], is stored in none of them. *)
Theorem operation_parameters_follow_path_parameters (method : string)
    (uriTemplate : URL) (path : openapi3.PathItem) (op : openapi3.Operation)
    (compiled : Operation) :
  openapiOperation method uriTemplate path op = Ret compiled ->
  let compiledFrom (location : string) (ps : list Param) :=
    Forall2 (fun d p => compileParam d = Ret p)
      (declaredIn location (openapi3.PathItem_Parameters path)
       ++ declaredIn location (openapi3.Operation_Parameters op)) ps in
  compiledFrom "path" (PathParams compiled)
  /\ compiledFrom "query" (QueryParams compiled)
  /\ compiledFrom "header" (HeaderParams compiled).
Proof.
  intros (params & Hloop & -> & -> & -> & _)%openapiOperation_Ret. cbv zeta.
  apply addParam_loop in Hloop as (ps & qs & hs & -> & -> & -> & Fp & Fq & Fh).
  simpl. unfold declaredIn in *.
  rewrite !omap_app, !List.filter_app in Fp, Fq, Fh. done.
Qed.
End Parameters.

(** C5, counterexample: a path parameter [id] declared on the path item
    as a string and on the operation as an integer compiles to two path
    parameters named [id], the path-level one first. *)
Lemma overridden_parameter_is_kept_twice :
  @openapiOperation Example.inOrder Example.url Example.slug
    "GET" widgetsURL
    {| openapi3.PathItem_Extensions := ∅;
       openapi3.PathItem_Parameters := [Some (idParameter "string")];
       openapi3.PathItem_Operations := ∅ |}
    (plainOperation ∅ [Some (idParameter "integer")])
  = Ret (getWidget "https://api.example.com/widgets"
           [ {| Param_Type := "string"; Param_Name := "id"; Param_DisplayName := "";
                Param_Description := ""; Param_Style := StyleSimple;
                Param_Explode := false; Param_Default := VNil;
                Param_Example := VNil |};
             {| Param_Type := "integer"; Param_Name := "id"; Param_DisplayName := "";
                Param_Description := ""; Param_Style := StyleSimple;
                Param_Explode := false; Param_Default := VNil;
                Param_Example := VNil |} ]).
Proof. vm_compute. reflexivity. Qed.

(** Witness of C5: the parameter [id], declared on the path item and on
    the operation. *)
Lemma operation_parameters_witness :
  let compiledFrom (location : string) (ps : list Param) :=
    Forall2 (fun d p => compileParam d = Ret p)
      (declaredIn location (openapi3.PathItem_Parameters pathItemWithId)
       ++ declaredIn location
            (openapi3.Operation_Parameters
               (plainOperation ∅ [Some (idParameter "integer")]))) ps in
  compiledFrom "path" [idParam "string"; idParam "integer"]
  /\ compiledFrom "query" []
  /\ compiledFrom "header" [].
Proof.
  apply (@operation_parameters_follow_path_parameters
           Example.inOrder Example.url Example.slug
           "GET" widgetsURL pathItemWithId
           (plainOperation ∅ [Some (idParameter "integer")])
           (getWidget "https://api.example.com/widgets"
              [idParam "string"; idParam "integer"])).
  vm_compute. reflexivity.
Defined.


(** ** C8: a path argument that does not parse *)

Section PathArguments.
Context `{NetURL} `{NetHTTP} `{Fmt} `{ParamMethods}.

Lemma substitutePath_first_failure (before : list Param) (okArgs : list string) :
  Forall2 (fun p a => exists v, Parse p a = Ok v) before okArgs ->
  forall failing after arg restArgs uri err,
    Parse failing arg = Err err ->
    Serialize failing (VString arg) = [arg] ->
    substitutePath (before ++ failing :: after) (okArgs ++ arg :: restArgs) uri
    = Ret (inr ("could not parse param " +:+ Param_Name failing
                +:+ " with input " +:+ arg +:+ ": " +:+ err)).
Proof.
  induction 1 as [|p a before okArgs [v Hv] _ IH];
    intros failing after arg restArgs uri err Herr Hser; simpl.
  - by rewrite Herr, Hser.
  - rewrite Hv. by apply IH.
Qed.

(** C8: when the arguments before it parse and a path argument does not,
    the invocation ends in [log.Fatalf] with a message that names the
    parameter and quotes the argument, and no request is sent.  The
    argument is quoted as [Param.Serialize] renders it, which for a string
    is the string itself (section 4.2 of the specification). *)
Theorem path_argument_parse_failure_is_fatal (o : Operation)
    (flags : gmap string Value) (before after : list Param) (failing : Param)
    (okArgs restArgs : list string) (arg : string) (err : error) :
  PathParams o = before ++ failing :: after ->
  Forall2 (fun p a => exists v, Parse p a = Ok v) before okArgs ->
  Parse failing arg = Err err ->
  Serialize failing (VString arg) = [arg] ->
  length restArgs = length after \/
    (BodyMediaType o <> "" /\ length after <= length restArgs) ->
  command o flags (okArgs ++ arg :: restArgs)
  = Ret (Fatal ("could not parse param " +:+ Param_Name failing
                +:+ " with input " +:+ arg +:+ ": " +:+ err))
  /\ forall req, command o flags (okArgs ++ arg :: restArgs) <> Ret (Sent req).
Proof.
  intros Hparams Hok Herr Hser Hcount.
  assert (Hrun : command o flags (okArgs ++ arg :: restArgs)
                 = Ret (Fatal ("could not parse param " +:+ Param_Name failing
                               +:+ " with input " +:+ arg +:+ ": " +:+ err))).
  { unfold command. rewrite Hparams.
    pose proof (Forall2_length _ _ _ Hok) as Hlen.
    rewrite !length_app. simpl.
    assert (Haccepted :
      (if String.eqb (BodyMediaType o) ""
       then (length okArgs + S (length restArgs) =? length before + S (length after))%nat
       else (length before + S (length after) <=? length okArgs + S (length restArgs))%nat)
      = true).
    { destruct Hcount as [Heq|[Hbody Hle]].
      - rewrite Hlen, Heq. destruct (String.eqb _ _);
          [apply Nat.eqb_refl | apply Nat.leb_refl].
      - apply String.eqb_neq in Hbody. rewrite Hbody.
        apply Nat.leb_le. lia. }
    rewrite Haccepted. unfold command_Run. rewrite Hparams.
    by rewrite (substitutePath_first_failure _ _ Hok _ _ _ _ _ _ Herr Hser). }
  split; [done|]. intros req. by rewrite Hrun.
Qed.
End PathArguments.

(** Witness of C8: the argument [abc] for the integer parameter [id] of
    [GET /users/{id}]. *)
Lemma path_argument_parse_failure_witness :
  @command Example.url Example.http Example.fmt Example.params
    getUser ∅ ([] ++ "abc" :: [])
  = Ret (Fatal "could not parse param id with input abc: invalid syntax")
  /\ forall req,
       @command Example.url Example.http Example.fmt Example.params
         getUser ∅ ([] ++ "abc" :: []) <> Ret (Sent req).
Proof.
  apply (@path_argument_parse_failure_is_fatal
           Example.url Example.http Example.fmt Example.params
           getUser ∅ [] [] (idParam "integer") [] [] "abc" "invalid syntax").
  - reflexivity.
  - constructor.
  - reflexivity.
  - reflexivity.
  - left. reflexivity.
Defined.

(** ** C1: suppressing defaults *)

(** The header loop skips a parameter exactly when the bound value equals
    the declared default, or no default is declared and the value is the
    zero value or an empty slice. *)
Lemma headerSkips_iff (param : Param) (rv : Value) (skip : bool) :
  headerSkips param rv = Ret skip ->
  (skip = true <->
   iface_eq rv (Param_Default param) = Ret true
   \/ (Param_Default param = VNil
       /\ (IsZero rv = Ret true \/ (Kind_of rv = KSlice /\ Len rv = 0)))).
Proof.
  unfold headerSkips. destruct (iface_eq rv (Param_Default param)) as [[|]|] eqn:Heq;
    simpl; [| |done].
  { intros [= <-]. split; [by left | done]. }
  destruct (Param_Default param) eqn:Hdef; simpl;
    try (intros [= <-]; split; [done | by intros [?|[? _]]]).
  destruct (IsZero rv) as [[|]|] eqn:Hzero; simpl; [| |done].
  { intros [= <-]. split; [intros _; right; by split; [|left] | done]. }
  intros [= <-]. split.
  - intros Hslice. right. split; [done|]. right.
    destruct rv; simpl in *; try done. split; [done|]. by apply Nat.eqb_eq.
  - intros [?|[_ [?|[Hkind Hlen]]]]; try done.
    destruct rv; simpl in *; try done. by apply Nat.eqb_eq.
Qed.

(** The query loop skips a parameter exactly when the bound value equals
    the declared default, or no default is declared and the value is the
    zero value; an empty slice that is not nil is not skipped. *)
Lemma querySkips_iff (param : Param) (v : Value) (skip : bool) :
  querySkips param v = Ret skip ->
  (skip = true <->
   iface_eq v (Param_Default param) = Ret true
   \/ (Param_Default param = VNil /\ IsZero v = Ret true)).
Proof.
  unfold querySkips. destruct (iface_eq v (Param_Default param)) as [[|]|] eqn:Heq;
    simpl; [| |done].
  { intros [= <-]. split; [by left | done]. }
  destruct (Param_Default param) eqn:Hdef; simpl;
    try (intros [= <-]; split; [done | by intros [?|[? _]]]).
  intros Hzero. rewrite Hzero. split.
  - intros ->. by right.
  - intros [?|[_ ?]]; congruence.
Qed.

(** C1, at the failing input: an array parameter without explicit default
    bound to an empty array is left out of the headers, but the query loop
    does not skip it: it is serialized and added, and the request carries
    [tags=]. *)
Lemma empty_array_query_parameter_is_sent :
  querySkips (tagsParam "tags") noStrings = Ret false
  /\ headerSkips (tagsParam "x-tags") noStrings = Ret true
  /\ @command Example.url Example.http Example.fmt Example.params
       listWidgets {[ "tags" := noStrings; "x-tags" := noStrings ]} []
     = Ret (Sent {| Request_Method := "GET";
                    Request_URI := "https://api.example.com/widgets?tags=";
                    Request_Header := ∅;
                    Request_Body := None |}).
Proof. repeat split; vm_compute; reflexivity. Qed.

Section Query.
Context `{NetURL} `{NetHTTP} `{Fmt} `{ParamMethods}.

(** Whatever [Param.Serialize] is, the query loop hands it the empty array
    and adds every string it returns. *)
Lemma buildQuery_empty_array (name : string) (elem : GoType) :
  buildQuery {[ name := VSlice elem (Some []) ]}
    [{| Param_Type := "array[string]"; Param_Name := name; Param_DisplayName := "";
        Param_Description := ""; Param_Style := StyleSimple;
        Param_Explode := false; Param_Default := VNil; Param_Example := VNil |}]
  = Ret (fold_left (fun q s => Add q name s)
           (Serialize
              {| Param_Type := "array[string]"; Param_Name := name;
                 Param_DisplayName := ""; Param_Description := "";
                 Param_Style := StyleSimple; Param_Explode := false;
                 Param_Default := VNil; Param_Example := VNil |}
              (VSlice elem (Some []))) ∅).
Proof.
  unfold buildQuery, flagValue. simpl. by rewrite lookup_singleton_eq.
Qed.
End Query.

(** ** Every order of a map's keys is the order of some run *)

Lemma position_lookup (keys : list string) (i : nat) (key : string) :
  NoDup keys -> keys !! i = Some key -> position key keys = i.
Proof.
  revert i. induction keys as [|k keys IH]; intros i Hnd Hi; [done|].
  apply NoDup_cons in Hnd as [Hnotin Hnd]. simpl.
  destruct i as [|i]; simpl in Hi.
  - injection Hi as ->. by rewrite String.eqb_refl.
  - destruct (String.eqb k key) eqn:Hk.
    + apply String.eqb_eq in Hk as ->.
      exfalso. apply Hnotin. by eapply list_elem_of_lookup_2.
    + f_equal. by apply IH.
Qed.

Lemma Sorted_consecutive {A : Type} (R : relation A) (l : list A) :
  (forall i a b, l !! i = Some a -> l !! Datatypes.S i = Some b -> R a b) ->
  Sorted R l.
Proof.
  induction l as [|x l IH]; intros Hcons; constructor.
  - apply IH. intros i a b Ha Hb. by apply (Hcons (Datatypes.S i)).
  - destruct l as [|y l]; constructor. by apply (Hcons 0).
Qed.

Lemma rangeMap_visiting {V : Type} (site : nat) (m : gmap string V)
    (entries : list (string * V)) :
  entries ≡ₚ map_to_list m ->
  @rangeMap (visiting entries.*1) V site m = entries.
Proof.
  intros Hperm.
  assert (Hnd : NoDup entries.*1)
    by (rewrite Hperm; apply NoDup_fst_map_to_list).
  assert (Hpos : forall i entry, entries !! i = Some entry ->
                 position entry.1 entries.*1 = i).
  { intros i entry Hi. apply position_lookup; [done|].
    by rewrite list_lookup_fmap, Hi. }
  set (R := @visitedBefore (visiting entries.*1) V site).
  assert (Htrans : Transitive R).
  { intros a b c. unfold R, visitedBefore. simpl. lia. }
  assert (Htotal : Total R).
  { intros a b. unfold R, visitedBefore. simpl. lia. }
  apply (Sorted_unique_strong R).
  - intros a b Ha Hb Hab Hba. unfold R, visitedBefore in Hab, Hba. simpl in *.
    rewrite (rangeMap_Permutation (H:=visiting entries.*1)), <- Hperm in Ha.
    apply list_elem_of_lookup in Ha as [i Hi], Hb as [j Hj].
    rewrite (Hpos _ _ Hi), (Hpos _ _ Hj) in Hab, Hba.
    assert (i = j) as -> by lia. congruence.
  - apply Sorted_merge_sort. exact Htotal.
  - apply Sorted_consecutive. intros i a b Hi Hj.
    unfold R, visitedBefore. simpl.
    rewrite (Hpos _ _ Hi), (Hpos _ _ Hj). lia.
  - rewrite (rangeMap_Permutation (H:=visiting entries.*1)). by symmetry.
Qed.

(** * Further properties *)

(** ** The built-in link parsers on an initialised map *)

Lemma fileLinks_Some (m : Links) (found : list Link) :
  exists m', fileLinks (Some m) found = Some m'.
Proof.
  revert m. induction found as [|l found IH]; intros m; simpl; [by eexists|].
  apply IH.
Qed.

Lemma forRange_fileLinks_Some {A : Type}
    (body : option Links -> A -> Run (option Links))
    (found : A -> list Link) (xs : list A) (m : Links) :
  Forall (fun x => forall m', body (Some m') x = Ret (fileLinks (Some m') (found x))) xs ->
  forRange body xs (Some m) = Ret (fileLinks (Some m) (flat_map found xs)).
Proof.
  intros Hall. revert m.
  induction Hall as [|x xs Hx _ IH]; intros m; simpl; [done|].
  rewrite Hx. destruct (fileLinks_Some m (found x)) as [m' Hm'].
  rewrite fileLinks_app, Hm'. apply IH.
Qed.

Lemma filter_halFound (entries : list (string * halLink)) (rel : string) :
  NoDup entries.*1 ->
  filter (fun l => Rel l = rel) (halFound entries) =
  match (list_to_map entries : gmap string halLink) !! rel with
  | Some link =>
      if String.eqb rel "curies" then [] else [{| Rel := rel; URI := Href link |}]
  | None => []
  end.
Proof.
  induction entries as [|[r link] entries IH]; intros Hnd; simpl.
  - by rewrite lookup_empty.
  - apply NoDup_cons in Hnd as [Hnotin Hnd]. unfold halFound in *. simpl.
    rewrite filter_app, IH by done. destruct (decide (r = rel)) as [->|Hne].
    + rewrite lookup_insert_eq.
      rewrite (not_elem_of_list_to_map_1 entries rel) by done.
      destruct (String.eqb rel "curies"); [done|].
      rewrite filter_cons_True by done. by rewrite filter_nil.
    + rewrite lookup_insert_ne by done.
      destruct (String.eqb r "curies"); [done|].
      rewrite filter_cons_False by done. by rewrite filter_nil.
Qed.

Section BuiltInParsers.
Context `{MapRange} `{Mapstructure} `{HTTPLink}.

(** X1: on a response whose links map exists, [HALParser] returns no
    error, leaves headers and body alone, stores nothing under [curies],
    and appends under every other relation of the decoded body one link
    with that relation's href, empty or not. *)
Theorem HALParser_appends_every_relation_but_curies (resp : Response)
    (m : Links) (hal : halBody) :
  Links_ resp = Some m ->
  DecodeHAL (Body resp) = Some hal ->
  exists resp',
    HALParser_ParseLinks resp = Ret (resp', None)
    /\ Headers resp' = Headers resp /\ Body resp' = Body resp
    /\ linksAt (Links_ resp') "curies" = linksAt (Links_ resp) "curies"
    /\ forall rel, rel <> "curies" ->
         linksAt (Links_ resp') rel =
         linksAt (Links_ resp) rel
         ++ match halBody_Links hal !! rel with
            | Some link => [{| Rel := rel; URI := Href link |}]
            | None => []
            end.
Proof.
  intros Hm Hdec. unfold HALParser_ParseLinks. rewrite Hdec, Hm.
  rewrite (forRange_fileLinks_Some _
             (fun entry => if String.eqb entry.1 "curies" then []
                           else [{| Rel := entry.1; URI := Href entry.2 |}])).
  2:{ apply Forall_forall. intros [rel link] _ m'. simpl.
      by destruct (String.eqb rel "curies"). }
  simpl. eexists. split; [reflexivity|]. split; [done|]. split; [done|].
  assert (Hat : forall rel,
    linksAt (fileLinks (Some m) (halFound (rangeMap 2 (halBody_Links hal)))) rel =
    linksAt (Some m) rel
    ++ match halBody_Links hal !! rel with
       | Some link =>
           if String.eqb rel "curies" then [] else [{| Rel := rel; URI := Href link |}]
       | None => []
       end).
  { intros rel. rewrite linksAt_fileLinks.
    rewrite filter_halFound by apply NoDup_rangeMap_keys.
    by rewrite list_to_map_rangeMap. }
  split.
  - change (linksAt (Links_ (withLinks resp ?l)) ?r) with (linksAt l r).
    unfold halFound in Hat. rewrite Hat. simpl.
    destruct (halBody_Links hal !! "curies"); by rewrite app_nil_r.
  - intros rel Hrel.
    change (linksAt (Links_ (withLinks resp ?l)) ?r) with (linksAt l r).
    unfold halFound in Hat. rewrite Hat.
    apply String.eqb_neq in Hrel. by rewrite Hrel.
Qed.
End BuiltInParsers.

Lemma flat_map_single {A B : Type} (f : A -> B) (l : list A) :
  flat_map (fun x => [f x]) l = map f l.
Proof. induction l; simpl; by f_equal. Qed.

Section MoreBuiltInParsers.
Context `{MapRange} `{Mapstructure} `{HTTPLink}.

(** X2: on a response whose links map exists, [SirenParser] returns no
    error and appends, for each decoded link with a non-empty href and in
    the order decoded, one link per relation the entry lists; entries
    without href add nothing, and a relation listed twice is stored
    twice. *)
Theorem SirenParser_appends_one_link_per_relation (resp : Response)
    (m : Links) (siren : sirenBody) :
  Links_ resp = Some m ->
  DecodeSiren (Body resp) = Some siren ->
  exists resp',
    SirenParser_ParseLinks resp = Ret (resp', None)
    /\ Headers resp' = Headers resp /\ Body resp' = Body resp
    /\ forall rel,
         linksAt (Links_ resp') rel =
         linksAt (Links_ resp) rel
         ++ flat_map (fun link =>
              if String.eqb (sirenLink_Href link) "" then []
              else map (fun _ => {| Rel := rel; URI := sirenLink_Href link |})
                       (filter (fun r => r = rel) (sirenLink_Rel link)))
            (sirenBody_Links siren).
Proof.
  intros Hm Hdec. unfold SirenParser_ParseLinks. rewrite Hdec, Hm.
  rewrite (forRange_fileLinks_Some _
             (fun link => if String.eqb (sirenLink_Href link) "" then []
                          else map (fun rel => {| Rel := rel; URI := sirenLink_Href link |})
                                   (sirenLink_Rel link))).
  2:{ apply Forall_forall. intros link _ m'.
      destruct (String.eqb (sirenLink_Href link) ""); [done|].
      rewrite (forRange_fileLinks_Some _
                 (fun rel => [{| Rel := rel; URI := sirenLink_Href link |}])).
      - by rewrite flat_map_single.
      - apply Forall_forall. by intros rel _ m''. }
  simpl. eexists. split; [reflexivity|]. split; [done|]. split; [done|].
  intros rel.
  change (linksAt (Links_ (withLinks resp ?l)) ?r) with (linksAt l r).
  rewrite linksAt_fileLinks. f_equal.
  induction (sirenBody_Links siren) as [|link links IH]; simpl; [done|].
  rewrite filter_app, IH. f_equal.
  destruct (String.eqb (sirenLink_Href link) ""); [done|].
  induction (sirenLink_Rel link) as [|r rels IHr]; simpl; [done|].
  rewrite !filter_cons. simpl.
  destruct (decide (r = rel)) as [->|Hne]; simpl; by rewrite IHr.
Qed.

(** X3: [LinkHeaderParser] never panics, whether or not the links map
    exists.  Without a [Link] header it leaves the response as it is; a
    header that does not parse leaves the response as it is and returns the
    parse error; a header that parses appends every parsed link under its
    relation, in header order. *)
Theorem LinkHeaderParser_appends_or_reports (resp : Response) :
  let header := default "" (Headers resp !! "Link") in
  exists resp' err,
    LinkHeaderParser_ParseLinks resp = Ret (resp', err)
    /\ Headers resp' = Headers resp /\ Body resp' = Body resp
    /\ if String.eqb header "" then resp' = resp /\ err = None
       else match link_Parse header with
            | Err e => resp' = resp /\ err = Some e
            | Ok links =>
                err = None
                /\ forall rel,
                     linksAt (Links_ resp') rel =
                     linksAt (Links_ resp) rel ++ filter (fun l => Rel l = rel) links
            end.
Proof.
  cbv zeta. unfold LinkHeaderParser_ParseLinks.
  destruct (String.eqb _ "") eqn:Hheader; [by exists resp, None|].
  destruct (link_Parse _) as [links|e]; [|by exists resp, (Some e)].
  rewrite (forRange_fileLinks _ (fun parsed => [parsed])).
  2:{ apply Forall_forall. intros [rel uri] _ acc.
      apply (appendLink_makeLinks acc {| Rel := rel; URI := uri |}). }
  simpl. eexists _, None. split; [reflexivity|]. split; [done|]. split; [done|].
  split; [done|]. intros rel.
  change (linksAt (Links_ (withLinks resp ?l)) ?r) with (linksAt l r).
  rewrite linksAt_fileLinks. f_equal. f_equal.
  rewrite (flat_map_single (fun l => l)). apply map_id.
Qed.
End MoreBuiltInParsers.

(** ** The resolution loop of [ParseLinks], whether or not URIs parse *)

Section Resolution.
Context `{MapRange} `{NetURL}.

Lemma keptOrResolved_refl (base : URL) (l : Link) : keptOrResolved base l l.
Proof. split; [done | by left]. Qed.

Lemma resolveLinks_outcome (base : URL) (links : list Link) :
  forall links' err,
    resolveLinks base links = (links', err) ->
    Forall2 (keptOrResolved base) links links'
    /\ (err = None <-> Forall parses links).
Proof.
  induction links as [|l links IH]; intros links' err Hrun; simpl in Hrun.
  - injection Hrun as <- <-. split; [constructor | done].
  - destruct (url_Parse (URI l)) as [p|e] eqn:Hp.
    + destruct (resolveLinks base links) as [rest' err'] eqn:Hrest.
      injection Hrun as <- <-. destruct (IH _ _ eq_refl) as [Hall Herr].
      split.
      * constructor; [|done]. split; [done|]. right. by exists p.
      * rewrite Herr. split.
        -- intros Hlinks. constructor; [by exists p | done].
        -- by intros [_ Hlinks]%Forall_cons.
    + injection Hrun as <- <-. split.
      * apply Forall_Forall2_diag, Forall_forall. intros ? _.
        apply keptOrResolved_refl.
      * split; [done|]. intros [[p Hp'] _]%Forall_cons. congruence.
Qed.

Lemma resolveEntries_outcome (base : URL) (original : Links)
    (entries : list (string * list Link)) :
  (forall rel links, (rel, links) ∈ entries -> original !! rel = Some links) ->
  forall m m' err,
    (forall rel, Forall2 (keptOrResolved base)
                   (linksAt (Some original) rel) (linksAt (Some m) rel)) ->
    resolveEntries base entries m = (m', err) ->
    (forall rel, Forall2 (keptOrResolved base)
                   (linksAt (Some original) rel) (linksAt (Some m') rel))
    /\ (err = None <-> Forall (fun entry => Forall parses entry.2) entries).
Proof.
  induction entries as [|[rel links] entries IH]; intros Hentries m m' err Hinv Hrun;
    simpl in Hrun.
  - injection Hrun as <- <-. split; [done | split; [constructor | done]].
  - destruct (resolveLinks base links) as [links' [e|]] eqn:Hlinks;
      destruct (resolveLinks_outcome _ _ _ _ Hlinks) as [Hall Herr].
    + injection Hrun as <- <-. split.
      * intros k. simpl. destruct (decide (rel = k)) as [<-|Hne].
        -- rewrite lookup_insert_eq, (Hentries rel links) by (by left). done.
        -- rewrite lookup_insert_ne by done. apply Hinv.
      * split; [done|]. intros [Hparse _]%Forall_cons.
        by apply Herr in Hparse.
    + assert (Hnext : forall k, Forall2 (keptOrResolved base)
                        (linksAt (Some original) k)
                        (linksAt (Some (<[rel := links']> m)) k)).
      { intros k. simpl. destruct (decide (rel = k)) as [<-|Hne].
        - rewrite lookup_insert_eq, (Hentries rel links) by (by left). done.
        - rewrite lookup_insert_ne by done. apply Hinv. }
      destruct (IH (fun r ls Hin => Hentries r ls (list_elem_of_further _ _ _ Hin))
                  _ _ _ Hnext Hrun) as [Hfinal Herr'].
      split; [done|]. rewrite Herr'. split.
      * intros Hrest. constructor; [by apply Herr | done].
      * by intros [_ Hrest]%Forall_cons.
Qed.
End Resolution.

Section ResolutionOutcome.
Context `{MapRange} `{NetURL} `{Fmt} `{Mapstructure} `{HTTPLink}.

(** X4: once every parser has returned without error, [ParseLinks] returns
    without panic; it keeps, under every relation, the number, order and
    relation names of the links, each URI being either untouched or
    replaced by its resolution; and it returns no error exactly when every
    link's URI parses (so a URI that does not parse is always
    reported). *)
Theorem ParseLinks_keeps_links_and_reports_bad_URIs (parsers : list LinkParser)
    (base : URL) (resp resp1 : Response) :
  runParsers parsers resp = Ret (resp1, None) ->
  exists resp2 err,
    ParseLinks parsers base resp = Ret (resp2, err)
    /\ Headers resp2 = Headers resp1 /\ Body resp2 = Body resp1
    /\ (forall rel, Forall2 (keptOrResolved base)
                      (linksAt (Links_ resp1) rel) (linksAt (Links_ resp2) rel))
    /\ (err = None <->
        forall rel l, l ∈ linksAt (Links_ resp1) rel -> parses l).
Proof.
  intros Hrun. unfold ParseLinks. rewrite Hrun.
  destruct (Links_ resp1) as [m|] eqn:Hlinks.
  - destruct (resolveEntries base (rangeMap 1 m) m) as [m' err] eqn:Hres.
    destruct (resolveEntries_outcome base m (rangeMap 1 m)) with (m := m) (m' := m') (err := err)
      as [Hall Herr]; try done.
    { intros rel links Hin. by apply elem_of_rangeMap in Hin. }
    { intros rel. apply Forall_Forall2_diag, Forall_forall. intros ? _.
      apply keptOrResolved_refl. }
    exists (withLinks resp1 (Some m')), err.
    split; [done|]. split; [done|]. split; [done|]. split; [done|].
    rewrite Herr. split.
    + intros Hparse rel l Hl. simpl in Hl.
      destruct (m !! rel) as [links|] eqn:Hrel; [|by apply elem_of_nil in Hl].
      apply elem_of_rangeMap with (site := 1) in Hrel.
      rewrite Forall_forall in Hparse. specialize (Hparse _ Hrel).
      rewrite Forall_forall in Hparse. by apply Hparse.
    + intros Hparse. apply Forall_forall. intros [rel links] Hin.
      apply elem_of_rangeMap in Hin. apply Forall_forall. intros l Hl.
      apply (Hparse rel). simpl. by rewrite Hin.
  - exists resp1, None. split; [done|]. split; [done|]. split; [done|].
    split.
    + intros rel. rewrite Hlinks. constructor.
    + split; [|done]. intros _ rel l Hl. by apply elem_of_nil in Hl.
Qed.
End ResolutionOutcome.

(** ** The loader: which operations are compiled, and when it fails *)

Section CompiledExactly.
Context `{MapRange} `{NetURL} `{Slug} `{!Resolver}.

Lemma compileOperations_all (resolved : URL) (path : openapi3.PathItem)
    (entries : list (string * openapi3.Operation)) :
  extBool (openapi3.PathItem_Extensions path) ExtIgnore false = false ->
  forall operations operations',
    compileOperations resolved path entries false operations = Ret operations' ->
    exists compiled,
      operations' = operations ++ compiled
      /\ Forall2 (fun entry op =>
                    openapiOperation entry.1 resolved path entry.2 = Ret op)
                 entries compiled.
Proof.
  intros Hkeep. induction entries as [|[method operation] entries IH];
    intros operations operations' Hrun; simpl in Hrun.
  - injection Hrun as <-. exists []. by rewrite app_nil_r.
  - rewrite Hkeep in Hrun.
    destruct (openapiOperation method resolved path operation) as [op|] eqn:Hop;
      [|done]. simpl in Hrun.
    destruct (IH _ _ Hrun) as (compiled & -> & Hall).
    exists (op :: compiled). rewrite <- app_assoc. split; [done|].
    by constructor.
Qed.

Lemma compilePaths_all (basePath : string)
    (entries : list (string * openapi3.PathItem)) :
  forall operations operations',
    compilePaths basePath entries operations = Ret (Ok operations') ->
    forall uri path,
      (uri, path) ∈ entries ->
      extBool (openapi3.PathItem_Extensions path) ExtIgnore false = false ->
      exists resolved,
        Resolve (basePath +:+ uri) = Ok resolved
        /\ forall method operation,
             openapi3.PathItem_Operations path !! method = Some operation ->
             exists op, op ∈ operations'
                        /\ openapiOperation method resolved path operation = Ret op.
Proof.
  assert (Hgrow : forall entries operations operations',
    compilePaths basePath entries operations = Ret (Ok operations') ->
    forall op, op ∈ operations -> op ∈ operations').
  { induction entries0 as [|[u p] entries0 IH]; intros operations operations' Hrun op Hop;
      simpl in Hrun.
    - by injection Hrun as <-.
    - destruct (extBool _ _ _) eqn:Hignore; [by eapply IH|].
      destruct (Resolve _) as [resolved|]; [|done].
      destruct (compileOperations _ _ _ _ _) as [added|] eqn:Hadd; [|done].
      simpl in Hrun. eapply IH; [done|].
      destruct (compileOperations_all _ _ _ Hignore _ _ Hadd) as (c & -> & _).
      apply elem_of_app. by left. }
  induction entries as [|[u p] entries IH];
    intros operations operations' Hrun uri path Hin Hkeep; simpl in Hrun.
  - by apply elem_of_nil in Hin.
  - apply elem_of_cons in Hin as [[= <- <-]|Hin].
    + rewrite Hkeep in Hrun.
      destruct (Resolve (basePath +:+ uri)) as [resolved|] eqn:Hres; [|done].
      destruct (compileOperations _ _ _ _ _) as [added|] eqn:Hadd; [|done].
      simpl in Hrun. exists resolved. split; [done|].
      intros method operation Hop.
      destruct (compileOperations_all _ _ _ Hkeep _ _ Hadd) as (c & -> & Hall).
      apply (elem_of_rangeMap 9) in Hop.
      apply list_elem_of_lookup in Hop as [i Hi].
      destruct (Forall2_lookup_l _ _ _ _ _ Hall Hi) as (op & Hc & Hcompiled).
      exists op. split; [|done].
      apply (Hgrow _ _ _ Hrun). apply elem_of_app. right.
      by eapply list_elem_of_lookup_2.
    + destruct (extBool (openapi3.PathItem_Extensions p) ExtIgnore false);
        [by eapply IH|].
      destruct (Resolve (basePath +:+ u)) as [resolved|]; [|done].
      destruct (compileOperations _ _ _ _ _) as [added|]; [|done].
      simpl in Hrun. by eapply IH.
Qed.

(** The loop over the paths appends, for each kept path in visiting
    order, the operations of that path in visiting order. *)
Lemma compilePaths_exact (basePath : string)
    (entries : list (string * openapi3.PathItem)) :
  forall operations operations',
    compilePaths basePath entries operations = Ret (Ok operations') ->
    exists groups,
      operations' = operations ++ concat groups
      /\ Forall2 (fun entry group =>
            exists resolved,
              Resolve (basePath +:+ entry.1) = Ok resolved
              /\ Forall2 (fun operation op =>
                    openapiOperation operation.1 resolved entry.2 operation.2
                    = Ret op)
                  (rangeMap 9 (openapi3.PathItem_Operations entry.2)) group)
          (List.filter keptPath entries) groups.
Proof.
  induction entries as [|[uri path] entries IH]; intros operations operations' Hrun;
    simpl in Hrun.
  - injection Hrun as <-. exists []. simpl. rewrite app_nil_r. by split.
  - simpl. unfold keptPath at 1. simpl.
    destruct (extBool (openapi3.PathItem_Extensions path) ExtIgnore false)
      eqn:Hignore; simpl.
    + by apply IH.
    + destruct (Resolve (basePath +:+ uri)) as [resolved|] eqn:Hres; [|done].
      destruct (compileOperations _ _ _ _ _) as [added|] eqn:Hadd; [|done].
      simpl in Hrun.
      destruct (compileOperations_all _ _ _ Hignore _ _ Hadd) as (group & -> & Hgroup).
      destruct (IH _ _ Hrun) as (groups & -> & Hgroups).
      exists (group :: groups). simpl. rewrite <- app_assoc. split; [done|].
      constructor; [|done]. by exists resolved.
Qed.

(** X5: when the loader succeeds, the base path is the one the base-path
    loop found, and the compiled operations are exactly the operations of
    the path items not flagged ignored: for each such path in the order
    the paths are visited, one operation for each method of the path, in
    the order the methods are visited, compiled at the resolved URI of the
    path.  An operation belongs to the API exactly when it is one of
    these; the ignore flag of an operation plays no part. *)
Theorem loadOpenAPI3_compiles_exactly_the_kept_paths (location : URL)
    (swagger : openapi3.Swagger) (api : API) :
  loadOpenAPI3 location swagger = Ret (Ok api) ->
  exists basePath groups,
    findBasePath (url_Scheme location +:+ "://" +:+ url_Host location)
      (openapi3.Servers swagger) "" = Ok basePath
    /\ Operations api = concat groups
    /\ Forall2 (fun entry group =>
          exists resolved,
            Resolve (basePath +:+ entry.1) = Ok resolved
            /\ Forall2 (fun operation op =>
                  openapiOperation operation.1 resolved entry.2 operation.2
                  = Ret op)
                (rangeMap 9 (openapi3.PathItem_Operations entry.2)) group)
        (List.filter keptPath (rangeMap 8 (openapi3.Paths swagger))) groups
    /\ forall op,
         op ∈ Operations api <->
         exists uri path resolved method operation,
           openapi3.Paths swagger !! uri = Some path
           /\ extBool (openapi3.PathItem_Extensions path) ExtIgnore false = false
           /\ Resolve (basePath +:+ uri) = Ok resolved
           /\ openapi3.PathItem_Operations path !! method = Some operation
           /\ openapiOperation method resolved path operation = Ret op.
Proof.
  unfold loadOpenAPI3. intros Hload.
  destruct (findBasePath _ _ _) as [basePath|] eqn:Hbase; [|done].
  destruct (compilePaths _ _ _) as [[operations|]|] eqn:Hpaths; try done.
  assert (Hops : Operations api = operations).
  { simpl in Hload. destruct (openapi3.Swagger_Info swagger);
      by injection Hload as <-. }
  rewrite Hops.
  destruct (compilePaths_exact _ _ _ _ Hpaths) as (groups & Hconcat & Hgroups).
  exists basePath, groups. split; [done|]. split; [done|]. split; [done|].
  intros op. split.
  - intros Hop.
    destruct (compilePaths_from _ _ _ _ Hpaths op Hop)
      as [?%elem_of_nil|(uri & path & r & m & o & Hin & Hrest)]; [done|].
    apply elem_of_rangeMap in Hin. by exists uri, path, r, m, o.
  - intros (uri & path & resolved & method & operation & Hpath & Hkeep & Hres & Hop & Hc).
    apply (elem_of_rangeMap 8) in Hpath.
    destruct (compilePaths_all _ _ _ _ Hpaths _ _ Hpath Hkeep) as (r & Hr & Hall).
    assert (r = resolved) as -> by congruence.
    destruct (Hall _ _ Hop) as (op' & Hin & Hc'). congruence.
Qed.

(** X6: the loader succeeds only if the resolver accepted the path of
    every path item not flagged ignored, also of an item without
    operations: one refused path leaves no API. *)
Theorem loadOpenAPI3_needs_every_kept_path_resolved (location : URL)
    (swagger : openapi3.Swagger) (api : API) :
  loadOpenAPI3 location swagger = Ret (Ok api) ->
  exists basePath,
    findBasePath (url_Scheme location +:+ "://" +:+ url_Host location)
      (openapi3.Servers swagger) "" = Ok basePath
    /\ forall uri path,
         openapi3.Paths swagger !! uri = Some path ->
         extBool (openapi3.PathItem_Extensions path) ExtIgnore false = false ->
         exists resolved, Resolve (basePath +:+ uri) = Ok resolved.
Proof.
  unfold loadOpenAPI3. intros Hload.
  destruct (findBasePath _ _ _) as [basePath|] eqn:Hbase; [|done].
  destruct (compilePaths _ _ _) as [[operations|]|] eqn:Hpaths; try done.
  exists basePath. split; [done|]. intros uri path Hpath Hkeep.
  apply (elem_of_rangeMap 8) in Hpath.
  destruct (compilePaths_all _ _ _ _ Hpaths _ _ Hpath Hkeep) as (r & Hr & _).
  by exists r.
Qed.

(** X7: the base-path loop fails exactly when the URL of some server that
    matches the prefix does not parse, and then with the error of the first
    such server; the URL of a server that does not match is never
    parsed. *)
Theorem findBasePath_fails_on_first_unparsable_match (prefix : string)
    (servers : list openapi3.Server) (basePath0 : string) (err : error) :
  findBasePath prefix servers basePath0 = Err err <->
  exists before s after,
    servers = before ++ s :: after
    /\ HasPrefix (openapi3.Server_URL s) prefix = true
    /\ url_Parse (openapi3.Server_URL s) = Err err
    /\ Forall (fun s' => HasPrefix (openapi3.Server_URL s') prefix = true ->
                         exists base, url_Parse (openapi3.Server_URL s') = Ok base)
              before.
Proof.
  revert basePath0. induction servers as [|s servers IH]; intros basePath0; simpl.
  - split; [done|]. intros (before & ? & ? & Heq & _). by destruct before.
  - destruct (HasPrefix (openapi3.Server_URL s) prefix) eqn:Hmatch.
    + destruct (url_Parse (openapi3.Server_URL s)) as [base|e] eqn:Hparse.
      * rewrite IH. split.
        -- intros (before & s' & after & -> & Hm & Hp & Hall).
           exists (s :: before), s', after. repeat split; try done.
           constructor; [by exists base | done].
        -- intros (before & s' & after & Heq & Hm & Hp & Hall).
           destruct before as [|s0 before]; simpl in Heq.
           ++ injection Heq as <- <-. congruence.
           ++ injection Heq as <- ->. apply Forall_cons in Hall as [_ Hall].
              by exists before, s', after.
      * split.
        -- intros [= <-]. exists [], s, servers. repeat split; try done.
        -- intros (before & s' & after & Heq & Hm & Hp & Hall).
           destruct before as [|s0 before]; simpl in Heq.
           ++ injection Heq as <- <-. congruence.
           ++ injection Heq as <- ->. apply Forall_cons in Hall as [Hs _].
              destruct (Hs Hmatch) as [base Hbase]. congruence.
    + rewrite IH. split.
      * intros (before & s' & after & -> & Hm & Hp & Hall).
        exists (s :: before), s', after. repeat split; try done.
        constructor; [|done]. intros Hm'. congruence.
      * intros (before & s' & after & Heq & Hm & Hp & Hall).
        destruct before as [|s0 before]; simpl in Heq.
        -- injection Heq as <- <-. congruence.
        -- injection Heq as <- ->. apply Forall_cons in Hall as [_ Hall].
           by exists before, s', after.
Qed.
End CompiledExactly.

(** ** [getRequestInfo] and the parameter compiler *)

Section RequestInfo.
Context `{MapRange} `{NetURL} `{Slug}.

(** X8: the schema and the examples [getRequestInfo] returns are those of
    the media type it returns, which is a declared one; only a request
    body without media types yields the empty media type, with no schema
    and no examples. *)
Theorem getRequestInfo_returns_the_info_of_its_media_type
    (content : gmap string openapi3.MediaType) :
  let '(mt, info) := getRequestInfo' content in
  match content !! mt with
  | Some item => info = mediaTypeInfo item
  | None => content = ∅ /\ mt = "" /\ info = (None, [])
  end.
Proof.
  assert (Hfound : forall site found,
    found ∈ rangeMap site (mediaTypeInfo <$> content) ->
    match content !! found.1 with
    | Some item => found.2 = mediaTypeInfo item
    | None => content = ∅ /\ found.1 = "" /\ found.2 = (None, [])
    end).
  { intros site [mt info] Hin%elem_of_rangeMap. simpl.
    rewrite lookup_fmap in Hin. destruct (content !! mt); [|done].
    by injection Hin as <-. }
  unfold getRequestInfo', firstContaining.
  destruct (List.find _ (rangeMap 5 _)) as [[mt info]|] eqn:Hjson.
  { apply find_Contains_Some in Hjson as [Hin _]. apply (Hfound _ _ Hin). }
  destruct (List.find _ (rangeMap 6 _)) as [[mt info]|] eqn:Hyaml.
  { apply find_Contains_Some in Hyaml as [Hin _]. apply (Hfound _ _ Hin). }
  destruct (rangeMap 7 (mediaTypeInfo <$> content)) as [|[mt info] rest] eqn:Hrange.
  - assert (Hempty : content = ∅).
    { apply (fmap_empty_inv mediaTypeInfo).
      apply map_to_list_empty_iff, Permutation_nil_r.
      by rewrite <- (rangeMap_Permutation 7), Hrange. }
    rewrite Hempty, lookup_empty. done.
  - apply (Hfound 7 (mt, info)). rewrite Hrange. by left.
Qed.
End RequestInfo.

(** X9: compiling a declared parameter panics exactly when its schema has
    the type [array] and no items schema; in every other case it returns a
    parameter with the declared name, and a parameter without schema gets
    the type [string] and no default. *)
Theorem compileParam_panics_only_on_array_without_items (p : openapi3.ParameterDecl) :
  match compileParam p with
  | Panic _ => arrayWithoutItems p
  | Ret param =>
      ~ arrayWithoutItems p
      /\ Param_Name param = openapi3.Parameter_Name p
      /\ ((forall schema, openapi3.Parameter_Schema p <> Some (Some schema)) ->
          Param_Type param = "string" /\ Param_Default param = VNil)
  end.
Proof.
  unfold arrayWithoutItems, compileParam.
  destruct (openapi3.Parameter_Schema p) as [[schema|]|] eqn:Hschema; simpl.
  - destruct (String.eqb (openapi3.Schema_Type schema) "array") eqn:Harray.
    + apply String.eqb_eq in Harray.
      destruct (openapi3.Schema_Items schema) as [[items|]|] eqn:Hitems; simpl.
      * split; [|split; [done|]].
        -- intros (s & [= <-] & _ & [?|?]); congruence.
        -- intros Hs. by destruct (Hs schema).
      * exists schema. auto.
      * exists schema. auto.
    + simpl. split; [|split; [done|]].
      * intros (s & [= <-] & Htype & _). apply String.eqb_neq in Harray. done.
      * intros Hs. exfalso. by apply (Hs schema).
  - split; [by intros (s & ? & _)|]. split; [done|]. by intros.
  - split; [by intros (s & ? & _)|]. split; [done|]. by intros.
Qed.

(** ** The query and header loops *)

Lemma GoType_eqb_eq (t u : GoType) : GoType_eqb t u = true <-> t = u.
Proof.
  revert u. induction t as [| | | | |t IH|k IHk t IHt|t IH]; intros u;
    destruct u; simpl; try (split; [done | by intros [=]]); try done.
  - rewrite IH. split; [by intros -> | by intros [= ->]].
  - rewrite andb_true_iff, IHk, IHt. split; [by intros [-> ->] | by intros [= -> ->]].
  - rewrite IH. split; [by intros -> | by intros [= ->]].
Qed.

(** Values of different dynamic types are never equal, and comparing them
    does not panic. *)
Lemma iface_eq_other_type (x y : Value) :
  typeOf x <> typeOf y -> iface_eq x y = Ret false.
Proof.
  intros Htype. destruct x, y; simpl in *; try done.
  - destruct (GoType_eqb elem elem0) eqn:Heq; [|done].
    apply GoType_eqb_eq in Heq. congruence.
  - destruct (GoType_eqb key key0 && GoType_eqb elem elem0) eqn:Heq; [|done].
    apply andb_true_iff in Heq as [->%GoType_eqb_eq ->%GoType_eqb_eq]. done.
  - destruct (GoType_eqb elem elem0) eqn:Heq; [|done].
    apply GoType_eqb_eq in Heq. congruence.
Qed.

(** X10: a declared default whose dynamic type differs from the type of
    the bound value never suppresses the parameter, in the query and in the
    headers, whatever the two values are: also a value that is zero, and
    also a default that denotes the same number. *)
Theorem default_of_another_type_never_suppresses (param : Param) (v : Value) :
  Param_Default param <> VNil ->
  typeOf v <> typeOf (Param_Default param) ->
  querySkips param v = Ret false /\ headerSkips param v = Ret false.
Proof.
  intros Hdefault Htype. unfold querySkips, headerSkips.
  rewrite (iface_eq_other_type _ _ Htype). simpl.
  by destruct (Param_Default param).
Qed.

(** When the declared default and the bound value are slices of the same
    element type, both loops panic at the comparison, before anything is
    serialized. *)
Lemma slice_default_of_the_same_type_panics (param : Param) (elem : GoType)
    (xs ys : option (list Value)) :
  Param_Default param = VSlice elem ys ->
  querySkips param (VSlice elem xs)
    = Panic "runtime error: comparing uncomparable type"
  /\ headerSkips param (VSlice elem xs)
     = Panic "runtime error: comparing uncomparable type".
Proof.
  intros Hdefault. unfold querySkips, headerSkips. rewrite Hdefault. simpl.
  assert (Hsame : GoType_eqb elem elem = true) by by apply GoType_eqb_eq.
  by rewrite Hsame.
Qed.

Lemma fold_Add_lookup (values : gmap string (list string)) (key : string)
    (vs : list string) (name : string) :
  default [] (fold_left (fun q s => Add q key s) vs values !! name) =
  default [] (values !! name) ++ (if String.eqb key name then vs else []).
Proof.
  revert values. induction vs as [|s vs IH]; intros values; simpl.
  - destruct (String.eqb key name); by rewrite app_nil_r.
  - rewrite IH. unfold Add. destruct (String.eqb key name) eqn:Hkey.
    + apply String.eqb_eq in Hkey as ->. rewrite lookup_insert_eq. simpl.
      by rewrite <- app_assoc.
    + apply String.eqb_neq in Hkey. by rewrite lookup_insert_ne.
Qed.

Lemma fold_Add_nonempty (values : gmap string (list string)) (key : string)
    (vs : list string) :
  (forall name, values !! name <> Some []) ->
  forall name, fold_left (fun q s => Add q key s) vs values !! name <> Some [].
Proof.
  revert values. induction vs as [|s vs IH]; intros values Hne; simpl; [done|].
  apply IH. intros name. unfold Add. destruct (decide (key = name)) as [->|Hkey].
  - rewrite lookup_insert_eq. intros [= Heq]. by destruct (default [] _).
  - by rewrite lookup_insert_ne.
Qed.

Section Loops.
Context `{NetURL} `{NetHTTP} `{Fmt} `{ParamMethods}.

Lemma buildQuery_from (flags : gmap string Value) (params : list Param) :
  forall query0 query,
    forRange (fun query param =>
        v ← flagValue flags (Param_Name param);
        skip ← querySkips param v;
        if skip : bool then Ret query
        else Ret (fold_left (fun q s => Add q (Param_Name param) s)
                            (Serialize param v) query))
      params query0 = Ret query ->
    (forall name, query0 !! name <> Some []) ->
    forall name,
      default [] (query !! name) =
      default [] (query0 !! name)
      ++ flat_map (fun p => if String.eqb (Param_Name p) name
                            then queryValues flags p else []) params
      /\ query !! name <> Some [].
Proof.
  induction params as [|param params IH]; intros query0 query Hrun Hne name;
    simpl in Hrun.
  - injection Hrun as <-. simpl. by rewrite app_nil_r.
  - unfold flagValue in Hrun. simpl. unfold queryValues at 1.
    destruct (flags !! Param_Name param) as [v|]; [|done]. simpl in Hrun.
    destruct (querySkips param v) as [[|]|]; [| |done]; simpl in Hrun.
    + destruct (IH _ _ Hrun Hne name) as [-> Hfinal]. split; [|done].
      by destruct (String.eqb (Param_Name param) name).
    + destruct (IH _ _ Hrun (fold_Add_nonempty _ _ _ Hne) name) as [-> Hfinal].
      split; [|done]. by rewrite fold_Add_lookup, <- app_assoc.
Qed.

(** X12: when the query loop returns, the values it collected under a name
    are the strings [Serialize] returned for the parameters of that name
    that were not skipped, in parameter order and in the serializer's
    order; a name with no such string is absent, never present with an
    empty list. *)
Theorem buildQuery_groups_by_name (flags : gmap string Value)
    (params : list Param) (query : gmap string (list string)) :
  buildQuery flags params = Ret query ->
  forall name,
    default [] (query !! name) =
    flat_map (fun p => if String.eqb (Param_Name p) name
                       then queryValues flags p else []) params
    /\ query !! name <> Some [].
Proof.
  intros Hrun name.
  destruct (buildQuery_from flags params ∅ query Hrun) with (name := name)
    as [Hvalues Hne].
  { intros n. by rewrite lookup_empty. }
  by rewrite lookup_empty in Hvalues.
Qed.
End Loops.

(** ** [makeJSONSafe] *)


Section JSONSafeProperties.
Context `{MapRange} `{Fmt}.

Lemma stringKeyed_from (converted : list (Value * Value)) :
  forall (tmpData : gmap string Value) k v,
    fold_left (fun tmpData kv => <[keyText kv.1 := kv.2]> tmpData) converted tmpData
      !! k = Some v ->
    tmpData !! k = Some v \/ exists kv, kv ∈ converted /\ v = kv.2.
Proof.
  induction converted as [|kv converted IH]; intros tmpData k v Hk; simpl in Hk.
  - by left.
  - apply IH in Hk as [Hk|(kv' & Hin & ->)].
    + destruct (decide (keyText kv.1 = k)) as [<-|Hne].
      * rewrite lookup_insert_eq in Hk. injection Hk as <-.
        right. exists kv. split; [by left | done].
      * rewrite lookup_insert_ne in Hk by done. by left.
    + right. exists kv'. split; [by right | done].
Qed.

Lemma stringKeyed_values (converted : list (Value * Value)) (k : string) (v : Value) :
  stringKeyed converted !! k = Some v ->
  exists kv, kv ∈ converted /\ v = kv.2.
Proof.
  unfold stringKeyed. intros Hk.
  destruct (stringKeyed_from converted ∅ k v Hk) as [Hempty|Hfound]; [|done].
  by rewrite lookup_empty in Hempty.
Qed.


Lemma makeJSONSafe_map (k t : GoType) (kvs : list (Value * Value)) :
  makeJSONSafe (VMap k t (Some kvs)) =
  mapOfStrings (stringKeyed (map (fun kv => (kv.1, makeJSONSafe kv.2)) kvs)).
Proof. reflexivity. Qed.


Lemma stringKeyed_rangeMap (tmpData : gmap string Value) :
  map_Forall (fun _ v => makeJSONSafe v = v) tmpData ->
  stringKeyed (map (fun kv => (kv.1, makeJSONSafe kv.2))
                   (map (fun entry => (VString entry.1, entry.2))
                        (rangeMap 10 tmpData)))
  = tmpData.
Proof.
  intros Hfixed. unfold stringKeyed. rewrite <- list_fmap_compose.
  apply map_eq. intros k.
  assert (Hfold : forall (entries : list (string * Value)) (acc : gmap string Value),
    fold_left (fun tmp kv => <[keyText kv.1 := kv.2]> tmp)
      (((fun kv : Value * Value => (kv.1, makeJSONSafe kv.2))
          ∘ (fun entry : string * Value => (VString entry.1, entry.2))) <$> entries) acc
    = fold_left (fun tmp entry => <[entry.1 := makeJSONSafe entry.2]> tmp) entries acc).
  { induction entries as [|e entries IHe]; intros acc; simpl; [done|]. apply IHe. }
  rewrite Hfold.
  rewrite (lookup_fold_insert_entries makeJSONSafe) by apply NoDup_rangeMap_keys.
  rewrite list_to_map_rangeMap, lookup_empty.
  destruct (tmpData !! k) as [v|] eqn:Hk; [|done].
  by rewrite (Hfixed k v Hk).
Qed.

Lemma makeJSONSafe_mapOfStrings (tmpData : gmap string Value) :
  map_Forall (fun _ v => makeJSONSafe v = v) tmpData ->
  makeJSONSafe (mapOfStrings tmpData) = mapOfStrings tmpData.
Proof.
  intros Hfixed. unfold mapOfStrings at 1. rewrite makeJSONSafe_map.
  by rewrite stringKeyed_rangeMap.
Qed.

(** X15: [makeJSONSafe] is idempotent: converting a converted value
    changes nothing. *)
Theorem makeJSONSafe_idempotent (obj : Value) :
  makeJSONSafe (makeJSONSafe obj) = makeJSONSafe obj.
Proof.
  induction obj as [| | | | | |t xs IH| |k t kvs IH| |t addr v IH]
    using Value_nested_ind; try done.
  - simpl. f_equal. f_equal. rewrite <- list_fmap_compose.
    apply list_fmap_ext. intros i x Hx. simpl.
    rewrite Forall_forall in IH. apply IH. by eapply list_elem_of_lookup_2.
  - rewrite makeJSONSafe_map. apply makeJSONSafe_mapOfStrings.
    intros key v Hkey.
    apply stringKeyed_values in Hkey as (kv & Hin & ->).
    apply list_elem_of_fmap in Hin as ([k0 child] & -> & Hin). simpl.
    rewrite Forall_forall in IH. by destruct (IH _ Hin).
Qed.
End JSONSafeProperties.

(** ** Headers, [loader.Load] and the command line *)

Section HeaderLoop.
Context `{NetURL} `{NetHTTP} `{Fmt} `{ParamMethods}.

Lemma buildHeaders_from (flags : gmap string Value) (params : list Param) :
  forall headers0 headers,
    forRange (fun headers param =>
        rv ← flagValue flags (Param_Name param);
        skip ← headerSkips param rv;
        if skip : bool then Ret headers
        else Ret (fold_left
                    (fun h s => Add h (CanonicalHeaderKey (Param_Name param)) s)
                    (Serialize param rv) headers))
      params headers0 = Ret headers ->
    (forall key, headers0 !! key <> Some []) ->
    forall key,
      default [] (headers !! key) =
      default [] (headers0 !! key)
      ++ flat_map (fun p => if String.eqb (CanonicalHeaderKey (Param_Name p)) key
                            then headerValues flags p else []) params
      /\ headers !! key <> Some [].
Proof.
  induction params as [|param params IH]; intros headers0 headers Hrun Hne key;
    simpl in Hrun.
  - injection Hrun as <-. simpl. by rewrite app_nil_r.
  - unfold flagValue in Hrun. simpl. unfold headerValues at 1.
    destruct (flags !! Param_Name param) as [v|]; [|done]. simpl in Hrun.
    destruct (headerSkips param v) as [[|]|]; [| |done]; simpl in Hrun.
    + destruct (IH _ _ Hrun Hne key) as [-> Hfinal]. split; [|done].
      by destruct (String.eqb (CanonicalHeaderKey (Param_Name param)) key).
    + destruct (IH _ _ Hrun (fold_Add_nonempty _ _ _ Hne) key) as [-> Hfinal].
      split; [|done]. by rewrite fold_Add_lookup, <- app_assoc.
Qed.

(** X13: when the header loop returns, the values under a header key are
    the strings [Serialize] returned for the parameters that were not
    skipped and whose name has that canonical form, in parameter order:
    parameters whose names differ only in case share one header, and a
    header with no value is absent. *)
Theorem buildHeaders_groups_by_canonical_name (flags : gmap string Value)
    (params : list Param) (headers : gmap string (list string)) :
  buildHeaders flags params = Ret headers ->
  forall key,
    default [] (headers !! key) =
    flat_map (fun p => if String.eqb (CanonicalHeaderKey (Param_Name p)) key
                       then headerValues flags p else []) params
    /\ headers !! key <> Some [].
Proof.
  intros Hrun key.
  destruct (buildHeaders_from flags params ∅ headers Hrun) with (key := key)
    as [Hvalues Hne].
  { intros n. by rewrite lookup_empty. }
  by rewrite lookup_empty in Hvalues.
Qed.
End HeaderLoop.

Section Load.
Context `{MapRange} `{NetURL} `{Slug}.

(** X16: every URI template [loader.Load] compiles is the text of a
    reference resolved against the entrypoint, the reference being the
    parsed base path followed by a declared path; the description's own
    location only selects the base path. *)
Theorem Load_resolves_against_the_entrypoint (entrypoint spec : URL)
    (swagger : openapi3.Swagger) (api : API) :
  loader_Load entrypoint spec swagger = Ret (Ok api) ->
  exists basePath,
    findBasePath (url_Scheme spec +:+ "://" +:+ url_Host spec)
      (openapi3.Servers swagger) "" = Ok basePath
    /\ forall op, op ∈ Operations api ->
         exists uri path parsed,
           openapi3.Paths swagger !! uri = Some path
           /\ url_Parse (basePath +:+ uri) = Ok parsed
           /\ URITemplate op = url_String (ResolveReference entrypoint parsed).
Proof.
  unfold loader_Load, loadOpenAPI3. intros Hload.
  destruct (findBasePath _ _ _) as [basePath|] eqn:Hbase; [|done].
  destruct (compilePaths _ _ _) as [[operations|]|] eqn:Hpaths; try done.
  assert (Hops : Operations api = operations).
  { simpl in Hload. destruct (openapi3.Swagger_Info swagger);
      by injection Hload as <-. }
  rewrite Hops. exists basePath. split; [done|]. intros op Hop.
  destruct (compilePaths_from _ _ _ _ Hpaths op Hop)
    as [?%elem_of_nil|(uri & path & r & m & o & Hin & _ & Hres & _ & Hc)]; [done|].
  apply elem_of_rangeMap in Hin.
  apply openapiOperation_Ret in Hc as (_ & _ & _ & _ & _ & _ & Huri & _).
  simpl in Hres. unfold loader_Resolve in Hres.
  destruct (url_Parse (basePath +:+ uri)) as [parsed|] eqn:Hparse; [|done].
  injection Hres as <-. by exists uri, path, parsed.
Qed.
End Load.

Lemma existsb_eqb_In (name : string) (names : list string) :
  existsb (String.eqb name) names = true <-> In name names.
Proof.
  rewrite existsb_exists. split.
  - intros (x & Hin & ->%String.eqb_eq). done.
  - intros Hin. exists name. split; [done | apply String.eqb_refl].
Qed.

(** X17: the API [Run] loads before executing is never one of the generic
    commands, also when an API of that name is registered; it is a
    registered API with a root command of its name, and it is an argument
    that does not begin with a dash.  After [help], the API named next is
    the one loaded. *)
Theorem Run_loads_only_registered_APIs (osArgs : list string)
    (configs : gmap string string) (commands : list string) :
  (forall name base,
      apiToLoad osArgs configs commands = Some (name, base) ->
      ~ In name genericCommands
      /\ configs !! name = Some base
      /\ In name commands
      /\ In name osArgs /\ HasPrefix name "-" = false)
  /\ (forall program name rest,
        name <> "help" ->
        HasPrefix program "-" = false -> HasPrefix name "-" = false ->
        apiToLoad (program :: "help" :: name :: rest) configs commands
        = apiToLoad (program :: name :: rest) configs commands).
Proof.
  split.
  - intros name base. unfold apiToLoad.
    destruct (List.filter _ osArgs) as [|program [|first rest]] eqn:Hargs; try done.
    set (apiName := match rest with
                    | second :: _ => if String.eqb first "help" then second else first
                    | [] => first
                    end).
    destruct (existsb (String.eqb apiName) genericCommands) eqn:Hgeneric; [done|].
    destruct (configs !! apiName) as [b|] eqn:Hconfig; [|done].
    destruct (existsb _ commands) eqn:Hcommand; [|done].
    intros [= <- <-].
    assert (Hin : In apiName (List.filter (fun arg => negb (HasPrefix arg "-")) osArgs)).
    { rewrite Hargs. unfold apiName. destruct rest as [|second rest].
      - right. by left.
      - destruct (String.eqb first "help"); [right; right; by left | right; by left]. }
    apply filter_In in Hin as [Hin Hdash].
    repeat split; try done.
    + intros Hg. apply existsb_eqb_In in Hg. congruence.
    + apply existsb_exists in Hcommand as (use & Huse & ->%String.eqb_eq). done.
    + by apply negb_true_iff in Hdash.
  - intros program name rest Hname Hprogram Hdash. unfold apiToLoad. simpl.
    rewrite Hprogram, Hdash. simpl.
    apply String.eqb_neq in Hname. rewrite Hname.
    destruct (List.filter _ rest); by rewrite ?Hname.
Qed.

(** ** The two loops compared, and the command as a whole *)

(** X18: the header loop skips every parameter the query loop skips, and
    beyond those exactly the parameters without a declared default that are
    bound to an empty slice that is not nil. *)
Theorem header_loop_skips_more_than_query_loop (param : Param) (v : Value) :
  headerSkips param v = Ret true <->
  querySkips param v = Ret true
  \/ (querySkips param v = Ret false
      /\ Param_Default param = VNil
      /\ exists elem, v = VSlice elem (Some [])).
Proof.
  unfold headerSkips, querySkips.
  destruct (iface_eq v (Param_Default param)) as [[|]|]; simpl.
  - split; [by left | done].
  - destruct (Param_Default param) eqn:Hdefault; simpl;
      try (split; [done | by intros [?|[_ [? _]]]]).
    destruct (IsZero v) as [[|]|] eqn:Hzero; simpl.
    + split; [by left | done].
    + split.
      * intros [= Hempty]. right. split; [done|]. split; [done|].
        destruct v as [| | | | |elem [[|x xs]|]| |]; simpl in *; try done.
        by exists elem.
      * intros [?|[_ [_ [elem ->]]]]; done.
    + split; [done | by intros [?|[? _]]].
  - split; [done | by intros [?|[? _]]].
Qed.

Section CommandPanics.
Context `{NetURL} `{NetHTTP} `{Fmt} `{ParamMethods}.

(** X11: a command one of whose query parameters declares a slice default
    and is bound to a slice of the same element type sends nothing: once the
    path is substituted and the loop reaches that parameter, [Run] panics
    at the comparison with the default.  Such a default is never matched
    and never sent. *)
Theorem command_panics_on_slice_default_of_the_flag_type (o : Operation)
    (flags : gmap string Value) (args : list string) (uri : string)
    (before after : list Param) (param : Param)
    (query : gmap string (list string)) (elem : GoType)
    (xs ys : option (list Value)) :
  substitutePath (PathParams o) args (URITemplate o) = Ret (inl uri) ->
  QueryParams o = before ++ param :: after ->
  buildQuery flags before = Ret query ->
  flags !! Param_Name param = Some (VSlice elem xs) ->
  Param_Default param = VSlice elem ys ->
  command_Run o flags args
    = Panic "runtime error: comparing uncomparable type".
Proof.
  intros Hpath Hparams Hbefore Hflag Hdefault.
  unfold command_Run. rewrite Hpath. simpl.
  unfold buildQuery in *. rewrite Hparams, forRange_app, Hbefore. simpl.
  unfold flagValue. rewrite Hflag. simpl.
  destruct (slice_default_of_the_same_type_panics param elem xs ys Hdefault)
    as [-> _].
  done.
Qed.

End CommandPanics.

(** Witness of X11: [tags] declares the default [[]string{}] and is bound
    to an empty [[]string]. *)
Lemma command_panics_on_slice_default_witness :
  @command_Run Example.url Example.http Example.fmt Example.params
    (queryWidgets [tagsWithDefault]) {[ "tags" := noStrings ]} []
  = Panic "runtime error: comparing uncomparable type".
Proof.
  pose proof (@command_panics_on_slice_default_of_the_flag_type
                Example.url Example.http Example.fmt Example.params
                (queryWidgets [tagsWithDefault]) {[ "tags" := noStrings ]} []
                "https://api.example.com/widgets" [] [] tagsWithDefault ∅
                TString (Some []) (Some [])) as Hthm.
  exact (Hthm ltac:(reflexivity) ltac:(reflexivity) ltac:(reflexivity)
              ltac:(vm_compute; reflexivity) ltac:(reflexivity)).
Defined.

(** ** Witnesses *)

(** Witness of X1: the HAL body with [curies] and [next]. *)
Lemma HALParser_appends_witness :
  exists resp',
    @HALParser_ParseLinks Example.inOrder Example.mapstructure
      (initialised halWithCuries) = Ret (resp', None)
    /\ Headers resp' = ∅ /\ Body resp' = halWithCuries
    /\ linksAt (Links_ resp') "curies" = linksAt (Some ∅) "curies"
    /\ forall rel, rel <> "curies" ->
         linksAt (Links_ resp') rel =
         linksAt (Some ∅) rel
         ++ match ({[ "curies" := {| Href := "/docs/{rel}" |};
                      "next" := {| Href := "/page/2" |} ]}
                     : gmap string halLink) !! rel with
            | Some link => [{| Rel := rel; URI := Href link |}]
            | None => []
            end.
Proof.
  pose proof (@HALParser_appends_every_relation_but_curies
           Example.inOrder Example.mapstructure (initialised halWithCuries) ∅
           {| halBody_Links := {[ "curies" := {| Href := "/docs/{rel}" |};
                                  "next" := {| Href := "/page/2" |} ]} |}) as Hthm.
  exact (Hthm ltac:(reflexivity) ltac:(vm_compute; reflexivity)).
Defined.

(** Witness of X2: the Siren body with one link. *)
Lemma SirenParser_appends_witness :
  exists resp',
    @SirenParser_ParseLinks Example.mapstructure (initialised sirenPage)
      = Ret (resp', None)
    /\ Headers resp' = ∅ /\ Body resp' = sirenPage
    /\ forall rel,
         linksAt (Links_ resp') rel =
         linksAt (Some ∅) rel
         ++ flat_map (fun link =>
              if String.eqb (sirenLink_Href link) "" then []
              else map (fun _ => {| Rel := rel; URI := sirenLink_Href link |})
                       (filter (fun r => r = rel) (sirenLink_Rel link)))
            [{| sirenLink_Rel := ["next"]; sirenLink_Href := "/page/2" |}].
Proof.
  pose proof (@SirenParser_appends_one_link_per_relation
           Example.mapstructure (initialised sirenPage) ∅
           {| sirenBody_Links :=
                [{| sirenLink_Rel := ["next"]; sirenLink_Href := "/page/2" |}] |}) as Hthm.
  exact (Hthm ltac:(reflexivity) ltac:(vm_compute; reflexivity)).
Defined.

(** Witness of X4: a [self] link whose URI is [:bad]. *)
Lemma ParseLinks_reports_bad_URI_witness :
  exists resp2 err,
    @ParseLinks Example.inOrder Example.url
      [@TerrificallySimpleJSONParser Example.fmt] widgetsURL badSelf
      = Ret (resp2, err)
    /\ Headers resp2 = ∅ /\ Body resp2 = Body badSelf
    /\ (forall rel,
          Forall2 (@keptOrResolved Example.url widgetsURL)
            (linksAt (Some {[ "self" := [{| Rel := "self"; URI := ":bad" |}] ]}) rel)
            (linksAt (Links_ resp2) rel))
    /\ (err = None <->
        forall rel l,
          l ∈ linksAt (Some {[ "self" := [{| Rel := "self"; URI := ":bad" |}] ]}) rel ->
          @parses Example.url l).
Proof.
  pose proof (@ParseLinks_keeps_links_and_reports_bad_URIs Example.inOrder Example.url
           [@TerrificallySimpleJSONParser Example.fmt] widgetsURL badSelf
           {| Headers := ∅;
              Links_ := Some {[ "self" := [{| Rel := "self"; URI := ":bad" |}] ]};
              Body := Body badSelf |}) as Hthm.
  exact (Hthm ltac:(vm_compute; reflexivity)).
Defined.

(** Witness of X5: the document with the one operation [GET /widgets]. *)
Lemma loadOpenAPI3_compiles_exactly_witness :
  exists basePath groups,
    @findBasePath Example.url "https://api.example.com" [] "" = Ok basePath
    /\ [getWidget "https://api.example.com/widgets" []] = concat groups
    /\ Forall2 (fun entry group =>
          exists resolved,
            @loader_Resolve Example.url entrypoint (basePath +:+ entry.1) = Ok resolved
            /\ Forall2 (fun operation op =>
                  @openapiOperation Example.inOrder Example.url Example.slug
                    operation.1 resolved entry.2 operation.2 = Ret op)
                (@rangeMap Example.inOrder _ 9 (openapi3.PathItem_Operations entry.2))
                group)
        (List.filter keptPath
           (@rangeMap Example.inOrder _ 8 (openapi3.Paths (widgetsDocument [] ∅ ∅))))
        groups
    /\ forall op,
         op ∈ [getWidget "https://api.example.com/widgets" []] <->
         exists uri path resolved method operation,
           openapi3.Paths (widgetsDocument [] ∅ ∅) !! uri = Some path
           /\ extBool (openapi3.PathItem_Extensions path) ExtIgnore false = false
           /\ @loader_Resolve Example.url entrypoint (basePath +:+ uri) = Ok resolved
           /\ openapi3.PathItem_Operations path !! method = Some operation
           /\ @openapiOperation Example.inOrder Example.url Example.slug
                method resolved path operation = Ret op.
Proof.
  pose proof (@loadOpenAPI3_compiles_exactly_the_kept_paths
           Example.inOrder Example.url Example.slug (Example.resolver entrypoint)
           entrypoint (widgetsDocument [] ∅ ∅)
           {| API_Short := ""; API_Long := "";
              Operations := [getWidget "https://api.example.com/widgets" []] |}) as Hthm.
  exact (Hthm ltac:(vm_compute; reflexivity)).
Defined.

(** Witness of X6: the same document. *)
Lemma loadOpenAPI3_needs_resolved_witness :
  exists basePath,
    @findBasePath Example.url "https://api.example.com" [] "" = Ok basePath
    /\ forall uri path,
         openapi3.Paths (widgetsDocument [] ∅ ∅) !! uri = Some path ->
         extBool (openapi3.PathItem_Extensions path) ExtIgnore false = false ->
         exists resolved,
           @loader_Resolve Example.url entrypoint (basePath +:+ uri) = Ok resolved.
Proof.
  pose proof (@loadOpenAPI3_needs_every_kept_path_resolved
           Example.inOrder Example.url Example.slug (Example.resolver entrypoint)
           entrypoint (widgetsDocument [] ∅ ∅)
           {| API_Short := ""; API_Long := "";
              Operations := [getWidget "https://api.example.com/widgets" []] |}) as Hthm.
  exact (Hthm ltac:(vm_compute; reflexivity)).
Defined.

(** Witness of X10: the default is the float 10 and the flag holds the
    integer 10. *)
Lemma default_of_another_type_witness :
  querySkips limitParam (VInt 10) = Ret false
  /\ headerSkips limitParam (VInt 10) = Ret false.
Proof.
  apply (default_of_another_type_never_suppresses limitParam (VInt 10)); done.
Defined.

(** Witness of X12: two tags bound to the query parameter of
    [listWidgets]. *)
Lemma buildQuery_groups_witness :
  default [] (({[ "tags" := ["a,b"] ]} : gmap string (list string)) !! "tags") =
  flat_map (fun p => if String.eqb (Param_Name p) "tags"
                     then @queryValues Example.params twoTags p else [])
           [tagsParam "tags"]
  /\ ({[ "tags" := ["a,b"] ]} : gmap string (list string)) !! "tags" <> Some [].
Proof.
  pose proof (@buildQuery_groups_by_name Example.params twoTags [tagsParam "tags"]
                {[ "tags" := ["a,b"] ]}) as Hthm.
  exact (Hthm ltac:(vm_compute; reflexivity) "tags").
Defined.

(** Witness of X13: two tags bound to the header parameter of
    [listWidgets]. *)
Lemma buildHeaders_groups_witness :
  default [] (({[ "X-Tags" := ["a,b"] ]} : gmap string (list string)) !! "X-Tags") =
  flat_map (fun p => if String.eqb (Example.canonical true (Param_Name p)) "X-Tags"
                     then @headerValues Example.params twoTags p else [])
           [tagsParam "x-tags"]
  /\ ({[ "X-Tags" := ["a,b"] ]} : gmap string (list string)) !! "X-Tags" <> Some [].
Proof.
  pose proof (@buildHeaders_groups_by_canonical_name Example.http Example.params
                twoTags [tagsParam "x-tags"] {[ "X-Tags" := ["a,b"] ]}) as Hthm.
  exact (Hthm ltac:(vm_compute; reflexivity) "X-Tags").
Defined.

(** Witness of X16: a description served from another host than the
    API. *)
Lemma Load_resolves_against_the_entrypoint_witness :
  exists basePath,
    @findBasePath Example.url "https://docs.example.com"
      (openapi3.Servers (widgetsDocument ["https://api.example.com/v1"] ∅ ∅)) ""
      = Ok basePath
    /\ forall op,
         op ∈ [getWidget "https://api.example.com/widgets" []] ->
         exists uri path parsed,
           openapi3.Paths (widgetsDocument ["https://api.example.com/v1"] ∅ ∅) !! uri
             = Some path
           /\ Example.simpleParse (basePath +:+ uri) = Ok parsed
           /\ URITemplate op = Example.simpleString (Example.simpleResolve entrypoint parsed).
Proof.
  pose proof (@Load_resolves_against_the_entrypoint Example.inOrder Example.url Example.slug
           entrypoint descriptionURL
           (widgetsDocument ["https://api.example.com/v1"] ∅ ∅)
           {| API_Short := ""; API_Long := "";
              Operations := [getWidget "https://api.example.com/widgets" []] |}) as Hthm.
  exact (Hthm ltac:(vm_compute; reflexivity)).
Defined.
